(** * hashMap_with_expansion: an open-addressing hash table that grows

    A shallow embedding of [hashMap_with_expansion.py] (Python 2) and the
    properties of its probing, placement, growth, lookup and deletion.

    Conventions of the embedding:
    - Python objects that can reach the table are the values of [pyobj];
      [PyNone] is Python's [None], which the table also uses as the
      marker of an empty slot.  [PyInt n] is a Python [int] (the width
      of the machine word is not modelled, nor is [long]); a text is a
      byte string whose characters have the code points 0..255.
    - An operation is a function from the table to [option (res A * Hash)]:
      [None] is a recursion that does not return, [Raise e] an exception
      (the table as it was when the exception left the method), [Ok a] a
      normal return.
    - The recursive probes take a fuel.  The methods [put], [get] and
      [delete] give them one unit of fuel per slot, which is as much as
      any terminating probe can use (see [_set_item_fuel_enough] and
      [_get_pos_fuel_enough]): they are the methods run by an interpreter
      with no bound on the depth of recursion.  Python ends a probe that
      nests deeper than its recursion limit (1000 frames unless it is
      changed) with a [RuntimeError]; [put_within], [get_within] and
      [delete_within] are the methods with that bound on the probe, and
      the properties that say that a call returns are about them. *)

From Stdlib Require Import ZArith Znumtheory Lia String Ascii.
From stdpp Require Import base decidable option list numbers strings.

Local Open Scope Z_scope.

(** * The program *)

(** ** Python values *)

Inductive pyobj : Type :=
| PyNone
| PyInt (n : Z)
| PyStr (s : string)
| PyFloat (m e : Z) (* the float m * 2^e *).

#[global] Instance pyobj_eq_dec : EqDecision pyobj.
Proof. solve_decision. Defined.

Inductive exn : Type := TypeError | KeyError | IndexError.

Inductive res (A : Type) : Type :=
| Ok (a : A)
| Raise (e : exn).
Arguments Ok {A} a.
Arguments Raise {A} e.

(** [a == b] on the objects above. *)
Definition py_eq (a b : pyobj) : bool := bool_decide (a = b).

(** [isinstance(key, (basestring, int))] *)
Definition is_acceptable_key (key : pyobj) : bool :=
  match key with
  | PyInt _ | PyStr _ => true
  | _ => false
  end.

(** [l[i]]: a negative index counts from the end, an index outside the
    list raises [IndexError]. *)
Definition norm_index {A} (l : list A) (i : Z) : option nat :=
  let n := Z.of_nat (length l) in
  let j := if i <? 0 then i + n else i in
  if (0 <=? j) && (j <? n) then Some (Z.to_nat j) else None.

Definition getitem {A} (l : list A) (i : Z) : res A :=
  match norm_index l i with
  | Some j => match l !! j with Some x => Ok x | None => Raise IndexError end
  | None => Raise IndexError
  end.

(** [l[i] = x] *)
Definition setitem {A} (l : list A) (i : Z) (x : A) : res (list A) :=
  match norm_index l i with
  | Some j => Ok (<[j:=x]> l)
  | None => Raise IndexError
  end.

(** ** custom_hash *)

Definition ord (char : ascii) : Z := Z.of_N (N_of_ascii char).

(** The loop [for char in key: result = 33 * result + ord(char)]. *)
Fixpoint custom_hash_loop (result : Z) (key : string) : Z :=
  match key with
  | EmptyString => result
  | String char rest => custom_hash_loop (33 * result + ord char) rest
  end.

Definition custom_hash (key : pyobj) : res Z :=
  let result := 5381 in
  match key with
  | PyInt n => Ok n
  | PyStr s => Ok (custom_hash_loop result s)
  | PyNone | PyFloat _ _ => Raise TypeError (* not iterable *)
  end.

(** ** The table *)

(** The attributes of a [Hash] that the methods read and write.
    [__initial_size] is never read, and [_max_threshold] is never
    written: it is the constant below. *)
Record Hash : Type := mkHash {
  _size : Z;
  _used_slots : Z;
  _dummy_slots : Z;
  _keys : list pyobj;
  _values : list pyobj;
  hash : pyobj -> res Z
}.

(** [_max_threshold = 0.70]: the double nearest to 7/10 is
    [6305039478318694 / 2^53]. *)
Definition _max_threshold_num : Z := 6305039478318694.
Definition _max_threshold_den : Z := 2 ^ 53.

Definition __init__ (size : Z) (hashfunction : pyobj -> res Z) : Hash :=
  {| _size := 8;
     _used_slots := 0;
     _dummy_slots := 0;
     _keys := replicate (Z.to_nat 8) PyNone;
     _values := replicate (Z.to_nat 8) PyNone;
     hash := custom_hash |}.

(** [Hash()] *)
Definition new_Hash : Hash := __init__ 8 custom_hash.

(** [float(used + dummy) / size >= 0.70].  The sum and the size are
    converted without rounding when they are below [2^53], and the
    division rounds their quotient to the nearest double, a tie to the
    double of even mantissa.  The doubles between 1/2 and 1 are the
    multiples of [1 / 2^53] and the mantissa of [_max_threshold] is
    even, so the rounded quotient is at or above [_max_threshold]
    exactly when the quotient is at or above the middle
    [(2 * 6305039478318694 - 1) / 2^54] of [_max_threshold] and the
    double before it.  The test below is that comparison of rationals;
    it is the test of the code for all counters and sizes below
    [2^53]. *)
Definition should_expand (self : Hash) : bool :=
  (2 * _max_threshold_num - 1) * _size self
    <=? (_used_slots self + _dummy_slots self) * (2 * _max_threshold_den).

Definition _probing (self : Hash) (current_position : Z) : Z :=
  ((5 + current_position) + 1) mod _size self.

Definition _calculate_position (self : Hash) (hashvalue : Z) : Z :=
  hashvalue mod _size self.

(** ** Operations: state, exceptions, divergence *)

Definition M (A : Type) : Type := Hash -> option (res A * Hash).

Definition ret {A} (a : A) : M A := fun self => Some (Ok a, self).
Definition raise {A} (e : exn) : M A := fun self => Some (Raise e, self).
Definition bind {A B} (m : M A) (f : A -> M B) : M B :=
  fun self =>
    match m self with
    | None => None
    | Some (Ok a, self') => f a self'
    | Some (Raise e, self') => Some (Raise e, self')
    end.

Notation "x <- m ;; k" := (bind m (fun x => k))
  (at level 90, m at next level, right associativity).
Notation "m ;;; k" := (bind m (fun _ => k))
  (at level 90, right associativity).

(** One unit of fuel per slot: a probe that has not stopped after that
    many calls never stops.  Each unit is one nested call of the probe,
    so a probe that uses more than the interpreter's recursion limit
    allows returns here and ends in a [RuntimeError] there; the methods
    under a limit follow the methods below. *)
Definition probe_fuel (self : Hash) : nat := Z.to_nat (_size self).

Definition set_keys (keys : list pyobj) (self : Hash) : Hash :=
  mkHash (_size self) (_used_slots self) (_dummy_slots self)
         keys (_values self) (hash self).
Definition set_values (values : list pyobj) (self : Hash) : Hash :=
  mkHash (_size self) (_used_slots self) (_dummy_slots self)
         (_keys self) values (hash self).
Definition set_used_slots (n : Z) (self : Hash) : Hash :=
  mkHash (_size self) n (_dummy_slots self)
         (_keys self) (_values self) (hash self).
Definition set_dummy_slots (n : Z) (self : Hash) : Hash :=
  mkHash (_size self) (_used_slots self) n
         (_keys self) (_values self) (hash self).

(** [self._keys[position] = key] and [self._values[position] = value] *)
Definition store_key (position : Z) (key : pyobj) : M unit :=
  fun self =>
    match setitem (_keys self) position key with
    | Ok keys => Some (Ok tt, set_keys keys self)
    | Raise e => Some (Raise e, self)
    end.
Definition store_value (position : Z) (value : pyobj) : M unit :=
  fun self =>
    match setitem (_values self) position value with
    | Ok values => Some (Ok tt, set_values values self)
    | Raise e => Some (Raise e, self)
    end.
Definition load_key (position : Z) : M pyobj :=
  fun self => Some (getitem (_keys self) position, self).
Definition load_value (position : Z) : M pyobj :=
  fun self => Some (getitem (_values self) position, self).

Definition _set_item_at_pos (position : Z) (key value : pyobj) : M unit :=
  store_key position key ;;;
  store_value position value ;;;
  fun self => Some (Ok tt, set_used_slots (_used_slots self + 1) self).

Fixpoint _set_item (fuel : nat) (position : Z) (key value : pyobj) : M unit :=
  match fuel with
  | O => fun _ => None
  | S fuel =>
      existing_key <- load_key position ;;
      if py_eq existing_key PyNone || py_eq existing_key key then
        _set_item_at_pos position key value
      else
        fun self =>
          let new_position := _probing self position in
          _set_item fuel new_position key value self
  end.

Definition call_hash (key : pyobj) : M Z :=
  fun self => Some (hash self key, self).

(** [for (key, value) in zip(keys, values): ...] *)
Fixpoint _reposition (kvs : list (pyobj * pyobj)) : M unit :=
  match kvs with
  | [] => ret tt
  | (key, value) :: kvs =>
      (if negb (py_eq key PyNone) then
         hashvalue <- call_hash key ;;
         fun self =>
           let position := _calculate_position self hashvalue in
           _set_item (probe_fuel self) position key value self
       else ret tt) ;;;
      _reposition kvs
  end.

Definition _resize : M unit :=
  fun self =>
    let old_keys := _keys self in
    let old_values := _values self in
    let size := _size self * 4 in
    _reposition (zip old_keys old_values)
      {| _size := size;
         _used_slots := 0;
         _dummy_slots := 0;
         _keys := replicate (Z.to_nat size) PyNone;
         _values := replicate (Z.to_nat size) PyNone;
         hash := hash self |}.

Definition raise_if_not_acceptable_key (key : pyobj) : M unit :=
  if negb (is_acceptable_key key) then raise TypeError else ret tt.

Definition put (key value : pyobj) : M unit :=
  raise_if_not_acceptable_key key ;;;
  (fun self => if should_expand self then _resize self else ret tt self) ;;;
  hashvalue <- call_hash key ;;
  fun self =>
    let position := _calculate_position self hashvalue in
    _set_item (probe_fuel self) position key value self.

Fixpoint _get_pos_recursively (fuel : nat) (position : Z) (key : pyobj) : M Z :=
  match fuel with
  | O => fun _ => None
  | S fuel =>
      fun self =>
        let new_position := _probing self position in
        (tmp_key <- load_key new_position ;;
         if py_eq tmp_key PyNone then raise KeyError
         else if negb (py_eq tmp_key key) then
           _get_pos_recursively fuel new_position key
         else ret new_position) self
  end.

Definition _get_pos (key : pyobj) : M Z :=
  raise_if_not_acceptable_key key ;;;
  hashvalue <- call_hash key ;;
  fun self =>
    let position := _calculate_position self hashvalue in
    (tmp_key <- load_key position ;;
     if py_eq tmp_key PyNone then raise KeyError
     else if negb (py_eq tmp_key key) then
       _get_pos_recursively (probe_fuel self) position key
     else ret position) self.

(** [_get_pos] returns a position or raises, so the test
    [position is None] of [get] and [delete] never succeeds. *)
Definition get (key : pyobj) : M pyobj :=
  position <- _get_pos key ;;
  load_value position.

Definition _delete_item (position : Z) (key : pyobj) : M unit :=
  store_key position PyNone ;;;
  store_value position PyNone ;;;
  fun self => Some (Ok tt, set_dummy_slots (_dummy_slots self + 1) self).

Definition delete (key : pyobj) : M unit :=
  position <- _get_pos key ;;
  _delete_item position key.

(** ** The methods under a recursion limit

    Every collision of a probe is one more nested call of [_set_item]
    or [_get_pos_recursively], and Python ends a call that nests deeper
    than its recursion limit with a [RuntimeError].  The methods below
    are the methods above with that limit made explicit: [limit] is a
    number of nested calls of the recursive probe that the interpreter
    allows at each probe of the call (its recursion limit less the
    frames of the callers), and [None] is a probe that needs more.  A
    result under [limit] is the result of the method in every
    interpreter that allows that many nested calls, and the result of
    the method without a limit (see [put_within_sound] and the lemmas
    beside it). *)

Fixpoint _reposition_within (limit : nat) (kvs : list (pyobj * pyobj))
  : M unit :=
  match kvs with
  | [] => ret tt
  | (key, value) :: kvs =>
      (if negb (py_eq key PyNone) then
         hashvalue <- call_hash key ;;
         fun self =>
           let position := _calculate_position self hashvalue in
           _set_item limit position key value self
       else ret tt) ;;;
      _reposition_within limit kvs
  end.

Definition _resize_within (limit : nat) : M unit :=
  fun self =>
    let old_keys := _keys self in
    let old_values := _values self in
    let size := _size self * 4 in
    _reposition_within limit (zip old_keys old_values)
      {| _size := size;
         _used_slots := 0;
         _dummy_slots := 0;
         _keys := replicate (Z.to_nat size) PyNone;
         _values := replicate (Z.to_nat size) PyNone;
         hash := hash self |}.

Definition put_within (limit : nat) (key value : pyobj) : M unit :=
  raise_if_not_acceptable_key key ;;;
  (fun self =>
     if should_expand self then _resize_within limit self else ret tt self) ;;;
  hashvalue <- call_hash key ;;
  fun self =>
    let position := _calculate_position self hashvalue in
    _set_item limit position key value self.

Definition _get_pos_within (limit : nat) (key : pyobj) : M Z :=
  raise_if_not_acceptable_key key ;;;
  hashvalue <- call_hash key ;;
  fun self =>
    let position := _calculate_position self hashvalue in
    (tmp_key <- load_key position ;;
     if py_eq tmp_key PyNone then raise KeyError
     else if negb (py_eq tmp_key key) then
       _get_pos_recursively limit position key
     else ret position) self.

Definition get_within (limit : nat) (key : pyobj) : M pyobj :=
  position <- _get_pos_within limit key ;;
  load_value position.

Definition delete_within (limit : nat) (key : pyobj) : M unit :=
  position <- _get_pos_within limit key ;;
  _delete_item position key.

(** Running a method for its table only. *)
Definition exec {A} (m : M A) (self : Hash) : option Hash :=
  match m self with
  | Some (_, self') => Some self'
  | None => None
  end.

(** * Vocabulary of the properties *)

(** ** Well-formed tables and probes *)

(** Both arrays have [_size] slots. *)
Definition wf (self : Hash) : Prop :=
  0 < _size self /\
  length (_keys self) = Z.to_nat (_size self) /\
  length (_values self) = Z.to_nat (_size self).

(** The slot a probe that started at [p] looks at after [i] collisions. *)
Definition probe_seq (self : Hash) (p : Z) (i : nat) : Z :=
  (p + 6 * Z.of_nat i) mod _size self.

(** The key of slot [p] stops a placement of [key]: the slot is empty or
    holds [key] already. *)
Definition stops_placement (key existing_key : pyobj) : bool :=
  py_eq existing_key PyNone || py_eq existing_key key.

(** A placement of [key] that starts at [p] collides [i] times and then
    stops. *)
Definition placement_stops (self : Hash) (p : Z) (key : pyobj) (i : nat) : Prop :=
  (forall j, (j < i)%nat ->
     exists k, getitem (_keys self) (probe_seq self p j) = Ok k /\
               stops_placement key k = false) /\
  exists k, getitem (_keys self) (probe_seq self p i) = Ok k /\
            stops_placement key k = true.

(** The table after [key], [value] went into slot [q]. *)
Definition placed (self : Hash) (q : Z) (key value : pyobj) : Hash :=
  {| _size := _size self;
     _used_slots := _used_slots self + 1;
     _dummy_slots := _dummy_slots self;
     _keys := <[Z.to_nat q := key]> (_keys self);
     _values := <[Z.to_nat q := value]> (_values self);
     hash := hash self |}.

(** The table after slot [q] was deleted. *)
Definition deleted (self : Hash) (q : Z) : Hash :=
  {| _size := _size self;
     _used_slots := _used_slots self;
     _dummy_slots := _dummy_slots self + 1;
     _keys := <[Z.to_nat q := PyNone]> (_keys self);
     _values := <[Z.to_nat q := PyNone]> (_values self);
     hash := hash self |}.

(** ** Searches, sequences of calls, stored keys *)

(** What a search answers when it stops at slot [q]. *)
Definition lookup_result (self : Hash) (q : Z) : res Z :=
  match getitem (_keys self) q with
  | Ok k => if py_eq k PyNone then Raise KeyError else Ok q
  | Raise e => Raise e
  end.

(** The calls of the interface. *)
Inductive op : Type :=
| Put (key value : pyobj)
| Get (key : pyobj)
| Delete (key : pyobj).

(** One call; a caller that catches the exception goes on with the table
    as the call left it. *)
Definition step (o : op) (self : Hash) : option Hash :=
  match o with
  | Put key value => exec (put key value) self
  | Get key => exec (get key) self
  | Delete key => exec (delete key) self
  end.

(** A sequence of calls; [None] when one of them does not return. *)
Fixpoint run (ops : list op) (self : Hash) : option Hash :=
  match ops with
  | [] => Some self
  | o :: ops =>
      match step o self with
      | Some self' => run ops self'
      | None => None
      end
  end.

(** The slots that hold a key. *)
Definition live_slots (self : Hash) : nat :=
  length (filter (fun k => k <> PyNone) (_keys self)).

(** The six insertions of the scenario, and the six lookups. *)
Definition six_puts : M unit :=
  put (PyStr "a") (PyInt 1) ;;; put (PyStr "b") (PyInt 2) ;;;
  put (PyStr "c") (PyInt 3) ;;; put (PyStr "d") (PyInt 4) ;;;
  put (PyStr "e") (PyInt 5) ;;; put (PyStr "f") (PyInt 6).

Definition six_gets : M (list pyobj) :=
  a <- get (PyStr "a") ;; b <- get (PyStr "b") ;; c <- get (PyStr "c") ;;
  d <- get (PyStr "d") ;; e <- get (PyStr "e") ;; f <- get (PyStr "f") ;;
  ret [a; b; c; d; e; f].

(** No key is in two slots. *)
Definition unique_keys (self : Hash) : Prop :=
  forall (q q' : nat) (k : pyobj),
    _keys self !! q = Some k -> _keys self !! q' = Some k ->
    k <> PyNone -> q = q'.

(** Every stored key is where a placement of that key would stop: the
    probe from its home slot reaches it over slots that hold other keys. *)
Definition chained (self : Hash) : Prop :=
  wf self /\
  forall (q : nat) (k : pyobj),
    _keys self !! q = Some k -> k <> PyNone ->
    is_acceptable_key k = true /\
    exists hv i,
      hash self k = Ok hv /\
      placement_stops self (_calculate_position self hv) k i /\
      probe_seq self (_calculate_position self hv) i = Z.of_nat q.

(** The call is a [delete]. *)
Definition is_delete (o : op) : bool :=
  match o with Delete _ => true | _ => false end.

(** [occ] lists the slots that hold a key. *)
Definition covers (self : Hash) (occ : list nat) : Prop :=
  forall (q : nat) (k : pyobj),
    _keys self !! q = Some k -> k <> PyNone -> q ∈ occ.

(** The pairs of [kvs] that [_reposition] inserts. *)
Definition count_live (kvs : list (pyobj * pyobj)) : nat :=
  length (filter (fun kv => kv.1 <> PyNone) kvs).

(** The value of the last pair of [kvs] with the key [k]. *)
Fixpoint last_value (kvs : list (pyobj * pyobj)) (k : pyobj) : option pyobj :=
  match kvs with
  | [] => None
  | (k', v') :: kvs =>
      match last_value kvs k with
      | Some v => Some v
      | None => if py_eq k' k then Some v' else None
      end
  end.

(** Some slot holds [k] with [v]. *)
Definition stored (self : Hash) (k v : pyobj) : Prop :=
  exists q : nat, _keys self !! q = Some k /\ _values self !! q = Some v.

(** Every slot is empty or holds an integer or a text. *)
Definition keys_acceptable (self : Hash) : bool :=
  forallb (fun k => py_eq k PyNone || is_acceptable_key k) (_keys self).

(** The table of the six texts, full enough to grow. *)
Definition full_table : Hash :=
  mkHash 8 6 0
    [PyStr "c"; PyStr "d"; PyStr "e"; PyStr "f"; PyNone; PyNone;
     PyStr "a"; PyStr "b"]
    [PyInt 3; PyInt 4; PyInt 5; PyInt 6; PyNone; PyNone; PyInt 1; PyInt 2]
    custom_hash.

(** What every table that calls can produce satisfies (see [valid_run]):
    the sizes are 8, 32, 128, ..., none of them a multiple of 3. *)
Definition valid (self : Hash) : Prop :=
  wf self /\
  hash self = custom_hash /\
  keys_acceptable self = true /\
  _size self mod 3 <> 0.


(** The value of the last [put] of [k] among the calls [ops]. *)
Fixpoint last_put (ops : list op) (k : pyobj) : option pyobj :=
  match ops with
  | [] => None
  | o :: ops =>
      match last_put ops k with
      | Some v => Some v
      | None =>
          match o with
          | Put key value => if py_eq key k then Some value else None
          | _ => None
          end
      end
  end.

(** What the counters of a table that calls can produce satisfy (see
    [counted_run]). *)
Definition counted (self : Hash) : Prop :=
  valid self /\
  8 <= _size self /\
  _size self mod 2 = 0 /\
  Z.of_nat (live_slots self) <= _used_slots self /\
  _used_slots self < _size self /\
  0 <= _dummy_slots self.

(** The table after [put(0)], [put(2)], [put(4)], [put(6)]. *)
Definition even_slots_table : Hash :=
  mkHash 8 4 0
    [PyInt 0; PyNone; PyInt 2; PyNone; PyInt 4; PyNone; PyInt 6; PyNone]
    [PyStr "a"; PyNone; PyStr "b"; PyNone; PyStr "c"; PyNone; PyStr "d";
     PyNone]
    custom_hash.

(** The table after [put(0)], [put(8)]: the key 8 went from its home
    slot 0 to slot 6. *)
Definition collision_table : Hash :=
  mkHash 8 2 0
    [PyInt 0; PyNone; PyNone; PyNone; PyNone; PyNone; PyInt 8; PyNone]
    [PyStr "a"; PyNone; PyNone; PyNone; PyNone; PyNone; PyStr "b"; PyNone]
    custom_hash.

(** * Properties *)

(** ** A first run *)

Example put_get_example :
  (put (PyStr "a") (PyInt 1) ;;; put (PyInt 8) (PyStr "x") ;;;
   a <- get (PyStr "a") ;; b <- get (PyInt 8) ;; ret (a, b)) new_Hash
  = Some (Ok (PyInt 1, PyStr "x"),
          mkHash 8 2 0
            [PyInt 8; PyNone; PyNone; PyNone; PyNone; PyNone; PyStr "a"; PyNone]
            [PyStr "x"; PyNone; PyNone; PyNone; PyNone; PyNone; PyInt 1; PyNone]
            custom_hash).
Proof. reflexivity. Qed.

(** ** Indexing *)

Lemma norm_index_in_range {A} (l : list A) (i : Z) :
  0 <= i < Z.of_nat (length l) -> norm_index l i = Some (Z.to_nat i).
Proof.
  intros Hi. unfold norm_index.
  destruct (Z.ltb_spec i 0) as [Hneg|_]; [lia|].
  destruct (Z.leb_spec 0 i); [|lia].
  destruct (Z.ltb_spec i (Z.of_nat (length l))); [reflexivity|lia].
Qed.

Lemma getitem_in_range {A} (l : list A) (i : Z) :
  0 <= i < Z.of_nat (length l) ->
  exists x, l !! Z.to_nat i = Some x /\ getitem l i = Ok x.
Proof.
  intros Hi. unfold getitem. rewrite norm_index_in_range by assumption.
  destruct (lookup_lt_is_Some_2 l (Z.to_nat i)) as [x Hx]; [lia|].
  exists x. rewrite Hx. auto.
Qed.

Lemma getitem_lookup {A} (l : list A) (i : Z) (x : A) :
  0 <= i < Z.of_nat (length l) ->
  getitem l i = Ok x <-> l !! Z.to_nat i = Some x.
Proof.
  intros Hi. destruct (getitem_in_range l i Hi) as (y & Hy & Hg).
  rewrite Hg, Hy. split; intros [= ->]; reflexivity.
Qed.

Lemma setitem_in_range {A} (l : list A) (i : Z) (x : A) :
  0 <= i < Z.of_nat (length l) -> setitem l i x = Ok (<[Z.to_nat i := x]> l).
Proof.
  intros Hi. unfold setitem. now rewrite norm_index_in_range.
Qed.

(** ** The probe sequence *)

Section Probe.
Variable self : Hash.
Hypothesis Hwf : wf self.

Lemma wf_keys_length : Z.of_nat (length (_keys self)) = _size self.
Proof. destruct Hwf as (? & -> & _). lia. Qed.

Lemma wf_values_length : Z.of_nat (length (_values self)) = _size self.
Proof. destruct Hwf as (? & _ & ->). lia. Qed.

Lemma probe_seq_range p i : 0 <= probe_seq self p i < _size self.
Proof. apply Z.mod_pos_bound, Hwf. Qed.

Lemma _calculate_position_range hv :
  0 <= _calculate_position self hv < _size self.
Proof. apply Z.mod_pos_bound, Hwf. Qed.

Lemma probe_seq_0 p : 0 <= p < _size self -> probe_seq self p 0 = p.
Proof. intros Hp. unfold probe_seq. rewrite Z.add_0_r. now apply Z.mod_small. Qed.

Lemma probe_seq_S p i :
  probe_seq self (_probing self p) i = probe_seq self p (S i).
Proof.
  unfold probe_seq, _probing.
  rewrite Zplus_mod_idemp_l. f_equal. lia.
Qed.

(** After [_size] collisions a probe is back where it started. *)
Lemma probe_seq_period p i :
  probe_seq self p (i + probe_fuel self) = probe_seq self p i.
Proof.
  unfold probe_seq, probe_fuel. destruct Hwf as (Hs & _).
  replace (p + 6 * Z.of_nat (i + Z.to_nat (_size self)))
    with (p + 6 * Z.of_nat i + 6 * _size self) by lia.
  apply Z_mod_plus_full.
Qed.
End Probe.

(** ** Placement *)

Lemma py_eq_true a b : py_eq a b = true <-> a = b.
Proof. unfold py_eq. apply bool_decide_eq_true. Qed.

Lemma py_eq_false a b : py_eq a b = false <-> a <> b.
Proof. unfold py_eq. apply bool_decide_eq_false. Qed.

Lemma py_eq_refl a : py_eq a a = true.
Proof. now apply py_eq_true. Qed.

Lemma stops_placement_true key k :
  stops_placement key k = true <-> k = PyNone \/ k = key.
Proof.
  unfold stops_placement. rewrite orb_true_iff, !py_eq_true. tauto.
Qed.

Lemma stops_placement_false key k :
  stops_placement key k = false <-> k <> PyNone /\ k <> key.
Proof.
  unfold stops_placement. rewrite orb_false_iff, !py_eq_false. tauto.
Qed.

Section Placement.
Variable self : Hash.
Hypothesis Hwf : wf self.

Lemma slot_key_defined p :
  0 <= p < _size self -> exists k, getitem (_keys self) p = Ok k.
Proof.
  intros Hp. destruct (getitem_in_range (_keys self) p) as (k & _ & Hk).
  - now rewrite wf_keys_length.
  - eauto.
Qed.

Lemma _set_item_at_pos_ok q key value :
  0 <= q < _size self ->
  _set_item_at_pos q key value self = Some (Ok tt, placed self q key value).
Proof.
  intros Hq. unfold _set_item_at_pos, bind, store_key, store_value.
  rewrite setitem_in_range by now rewrite wf_keys_length.
  cbn [_values set_keys].
  rewrite setitem_in_range by now rewrite wf_values_length.
  reflexivity.
Qed.

Lemma _delete_item_ok q key :
  0 <= q < _size self ->
  _delete_item q key self = Some (Ok tt, deleted self q).
Proof.
  intros Hq. unfold _delete_item, bind, store_key, store_value.
  rewrite setitem_in_range by now rewrite wf_keys_length.
  cbn [_values set_keys].
  rewrite setitem_in_range by now rewrite wf_values_length.
  reflexivity.
Qed.

Lemma placement_stops_shift p key i :
  placement_stops self (_probing self p) key i ->
  (exists k, getitem (_keys self) (probe_seq self p 0) = Ok k /\
             stops_placement key k = false) ->
  placement_stops self p key (S i).
Proof.
  intros [Hbefore Hat] H0. split.
  - intros [|j] Hj; [exact H0|].
    rewrite <- probe_seq_S. apply Hbefore. lia.
  - now rewrite <- probe_seq_S.
Qed.

Lemma placement_stops_unshift p key i :
  placement_stops self p key (S i) ->
  placement_stops self (_probing self p) key i.
Proof.
  intros [Hbefore Hat]. split.
  - intros j Hj. rewrite probe_seq_S. apply Hbefore. lia.
  - now rewrite probe_seq_S.
Qed.

(** The number of collisions of a placement is determined. *)
Lemma placement_stops_unique p key i i' :
  placement_stops self p key i -> placement_stops self p key i' -> i = i'.
Proof.
  intros [Hb (k & Hk & Hs)] [Hb' (k' & Hk' & Hs')].
  destruct (Nat.lt_trichotomy i i') as [Hlt|[Heq|Hlt]]; [|assumption|].
  - destruct (Hb' i Hlt) as (k0 & Hk0 & Hs0). congruence.
  - destruct (Hb i' Hlt) as (k0 & Hk0 & Hs0). congruence.
Qed.

(** A placement that stops does so before it has made [_size]
    collisions: after that many it only revisits slots. *)
Lemma placement_stops_lt_fuel p key i :
  placement_stops self p key i -> (i < probe_fuel self)%nat.
Proof.
  intros [Hb (k & Hk & Hs)].
  destruct (Nat.lt_ge_cases i (probe_fuel self)) as [|Hge]; [assumption|].
  destruct (Hb (i - probe_fuel self)%nat) as (k0 & Hk0 & Hs0).
  - destruct Hwf as (Hs0 & _). unfold probe_fuel in *. lia.
  - rewrite <- (probe_seq_period self Hwf p (i - probe_fuel self)) in Hk0.
    replace (i - probe_fuel self + probe_fuel self)%nat with i in Hk0 by lia.
    congruence.
Qed.

Lemma _set_item_stops key value i : forall n p,
  0 <= p < _size self ->
  placement_stops self p key i -> (i < n)%nat ->
  _set_item n p key value self
  = Some (Ok tt, placed self (probe_seq self p i) key value).
Proof.
  induction i as [|i IH]; intros [|n] p Hp Hstop Hn; try lia.
  - destruct Hstop as [_ (k & Hk & Hs)].
    rewrite probe_seq_0 in * by assumption.
    cbn [_set_item]. unfold bind at 1, load_key. rewrite Hk.
    fold (stops_placement key k). rewrite Hs.
    now apply _set_item_at_pos_ok.
  - pose proof (placement_stops_unshift _ _ _ Hstop) as Hstop'.
    destruct Hstop as [Hb _]. destruct (Hb 0%nat) as (k & Hk & Hs); [lia|].
    rewrite probe_seq_0 in Hk by assumption.
    cbn [_set_item]. unfold bind at 1, load_key. rewrite Hk.
    fold (stops_placement key k). rewrite Hs.
    rewrite IH; [|apply Z.mod_pos_bound, Hwf|assumption|lia].
    now rewrite probe_seq_S.
Qed.

Lemma _set_item_inv key value : forall n p r,
  0 <= p < _size self ->
  _set_item n p key value self = Some r ->
  exists i, (i < n)%nat /\ placement_stops self p key i.
Proof.
  induction n as [|n IH]; intros p r Hp Hrun; [discriminate|].
  destruct (slot_key_defined p Hp) as (k & Hk).
  cbn [_set_item] in Hrun. unfold bind at 1, load_key in Hrun.
  rewrite Hk in Hrun. fold (stops_placement key k) in Hrun.
  destruct (stops_placement key k) eqn:Hs.
  - exists 0%nat. split; [lia|]. split; [intros j Hj; lia|].
    exists k. now rewrite probe_seq_0.
  - apply IH in Hrun as (i & Hi & Hstop); [|apply Z.mod_pos_bound, Hwf].
    exists (S i). split; [lia|].
    apply placement_stops_shift; [assumption|].
    exists k. now rewrite probe_seq_0.
Qed.

(** A placement either stops within [probe_fuel] collisions, or never. *)
Lemma _set_item_fuel_enough key value n p r :
  0 <= p < _size self ->
  _set_item n p key value self = Some r ->
  _set_item (probe_fuel self) p key value self = Some r.
Proof.
  intros Hp Hrun.
  destruct (_set_item_inv _ _ _ _ _ Hp Hrun) as (i & Hi & Hstop).
  rewrite (_set_item_stops key value i n p Hp Hstop Hi) in Hrun.
  rewrite <- Hrun. apply _set_item_stops; [assumption..|].
  now apply placement_stops_lt_fuel with p key.
Qed.
End Placement.

(** ** Lookup *)

Section Lookup.
Variable self : Hash.
Hypothesis Hwf : wf self.

Lemma _probing_range p : 0 <= _probing self p < _size self.
Proof. apply Z.mod_pos_bound, Hwf. Qed.

Lemma _get_pos_recursively_stops key i : forall n p,
  placement_stops self (_probing self p) key i -> (i < n)%nat ->
  _get_pos_recursively n p key self
  = Some (lookup_result self (probe_seq self (_probing self p) i), self).
Proof.
  induction i as [|i IH]; intros [|n] p Hstop Hn; try lia.
  - destruct Hstop as [_ (k & Hk & Hs)].
    rewrite probe_seq_0 in * by (assumption || apply _probing_range).
    cbn [_get_pos_recursively]. unfold bind, load_key, lookup_result.
    rewrite Hk. destruct (py_eq k PyNone) eqn:Hnone; [reflexivity|].
    apply stops_placement_true in Hs as [->| ->]; [discriminate|].
    now rewrite py_eq_refl.
  - pose proof (placement_stops_unshift _ _ _ _ Hstop) as Hstop'.
    destruct Hstop as [Hb _]. destruct (Hb 0%nat) as (k & Hk & Hs); [lia|].
    rewrite probe_seq_0 in Hk by (assumption || apply _probing_range).
    apply stops_placement_false in Hs as [Hnone Hkey].
    apply py_eq_false in Hnone, Hkey.
    cbn [_get_pos_recursively]. unfold bind at 1, load_key.
    rewrite Hk, Hnone, Hkey. cbn [negb].
    rewrite IH by (assumption || lia).
    now rewrite probe_seq_S.
Qed.

Lemma _get_pos_recursively_inv key : forall n p r,
  _get_pos_recursively n p key self = Some r ->
  exists i, (i < n)%nat /\ placement_stops self (_probing self p) key i.
Proof.
  induction n as [|n IH]; intros p r Hrun; [discriminate|].
  destruct (slot_key_defined self Hwf _ (_probing_range p)) as (k & Hk).
  cbn [_get_pos_recursively] in Hrun. unfold bind at 1, load_key in Hrun.
  rewrite Hk in Hrun.
  assert (H0 : probe_seq self (_probing self p) 0 = _probing self p)
    by apply probe_seq_0, _probing_range; try assumption.
  destruct (stops_placement key k) eqn:Hs.
  - exists 0%nat. split; [lia|]. split; [intros j Hj; lia|].
    exists k. now rewrite H0.
  - pose proof Hs as Hs'.
    apply stops_placement_false in Hs' as [Hnone Hkey].
    apply py_eq_false in Hnone, Hkey. rewrite Hnone, Hkey in Hrun.
    cbn [negb] in Hrun.
    apply IH in Hrun as (i & Hi & Hstop).
    exists (S i). split; [lia|].
    apply placement_stops_shift; [assumption..|].
    exists k. now rewrite H0.
Qed.

(** A search either stops within [probe_fuel] collisions, or never. *)
Lemma _get_pos_fuel_enough key n p r :
  _get_pos_recursively n p key self = Some r ->
  _get_pos_recursively (probe_fuel self) p key self = Some r.
Proof.
  intros Hrun.
  destruct (_get_pos_recursively_inv _ _ _ _ Hrun) as (i & Hi & Hstop).
  rewrite (_get_pos_recursively_stops key i n p Hstop Hi) in Hrun.
  rewrite <- Hrun. apply _get_pos_recursively_stops; [assumption|].
  now apply placement_stops_lt_fuel with (_probing self p) key.
Qed.

Section WithKey.
Variables (key : pyobj) (hv : Z).
Hypothesis Hkey : is_acceptable_key key = true.
Hypothesis Hhash : hash self key = Ok hv.

Lemma _get_pos_stops i :
  placement_stops self (_calculate_position self hv) key i ->
  _get_pos key self
  = Some (lookup_result self
            (probe_seq self (_calculate_position self hv) i), self).
Proof.
  intros Hstop.
  pose proof (_calculate_position_range self Hwf hv) as Hp.
  pose proof (placement_stops_lt_fuel self Hwf _ _ _ Hstop) as Hfuel.
  unfold _get_pos, raise_if_not_acceptable_key. rewrite Hkey. cbn [negb].
  unfold bind at 1, ret. unfold bind at 1, call_hash. rewrite Hhash.
  destruct i as [|i].
  - destruct Hstop as [_ (k & Hk & Hs)].
    rewrite probe_seq_0 in * by assumption.
    unfold bind, load_key, lookup_result. rewrite Hk.
    destruct (py_eq k PyNone) eqn:Hnone; [reflexivity|].
    apply stops_placement_true in Hs as [->| ->]; [discriminate|].
    now rewrite py_eq_refl.
  - pose proof (placement_stops_unshift _ _ _ _ Hstop) as Hstop'.
    destruct Hstop as [Hb _]. destruct (Hb 0%nat) as (k & Hk & Hs); [lia|].
    rewrite probe_seq_0 in Hk by assumption.
    apply stops_placement_false in Hs as [Hnone Hne].
    apply py_eq_false in Hnone, Hne.
    unfold bind at 1, load_key. rewrite Hk, Hnone, Hne. cbn [negb].
    rewrite (_get_pos_recursively_stops key i) by (assumption || lia).
    now rewrite probe_seq_S.
Qed.

Lemma _get_pos_inv r :
  _get_pos key self = Some r ->
  exists i, placement_stops self (_calculate_position self hv) key i.
Proof.
  pose proof (_calculate_position_range self Hwf hv) as Hp.
  unfold _get_pos, raise_if_not_acceptable_key. rewrite Hkey. cbn [negb].
  unfold bind at 1, ret. unfold bind at 1, call_hash. rewrite Hhash.
  destruct (slot_key_defined self Hwf _ Hp) as (k & Hk).
  unfold bind at 1, load_key. rewrite Hk.
  assert (H0 : getitem (_keys self)
                 (probe_seq self (_calculate_position self hv) 0) = Ok k)
    by now rewrite probe_seq_0.
  destruct (stops_placement key k) eqn:Hs.
  - intros _. exists 0%nat. split; [intros j Hj; lia|]. eauto.
  - pose proof Hs as Hs'.
    apply stops_placement_false in Hs' as [Hnone Hne].
    apply py_eq_false in Hnone, Hne. rewrite Hnone, Hne. cbn [negb].
    intros Hrun. apply _get_pos_recursively_inv in Hrun as (i & _ & Hstop).
    exists (S i). apply placement_stops_shift; eauto.
Qed.
End WithKey.
End Lookup.

(** ** Well-formedness is kept *)

Lemma wf_placed self q key value : wf self -> wf (placed self q key value).
Proof.
  intros (Hs & Hk & Hv). unfold wf. cbn. now rewrite !length_insert.
Qed.

Lemma wf_deleted self q : wf self -> wf (deleted self q).
Proof.
  intros (Hs & Hk & Hv). unfold wf. cbn. now rewrite !length_insert.
Qed.

Lemma wf_new_Hash : wf new_Hash.
Proof. unfold wf. cbn. repeat split; reflexivity. Qed.

(** What a placement that returns has done. *)
Lemma _set_item_result self n p key value r self' :
  wf self -> 0 <= p < _size self ->
  _set_item n p key value self = Some (r, self') ->
  exists i, placement_stops self p key i /\ r = Ok tt /\
            self' = placed self (probe_seq self p i) key value.
Proof.
  intros Hwf Hp Hrun.
  destruct (_set_item_inv self Hwf _ _ _ _ _ Hp Hrun) as (i & Hi & Hstop).
  rewrite (_set_item_stops self Hwf key value i n p Hp Hstop Hi) in Hrun.
  injection Hrun as <- <-. eauto.
Qed.

(** The loop of [_reposition] changes neither the size nor the hash
    function, and raises only if the hash function does. *)
Lemma _reposition_frame kvs : forall self r self',
  wf self ->
  _reposition kvs self = Some (r, self') ->
  wf self' /\ _size self' = _size self /\ hash self' = hash self.
Proof.
  induction kvs as [|[key value] kvs IH]; intros self r self' Hwf Hrun.
  - injection Hrun as <- <-. auto.
  - cbn [_reposition] in Hrun. unfold bind at 1 in Hrun.
    destruct (py_eq key PyNone); cbn [negb] in Hrun.
    + apply IH in Hrun; assumption.
    + unfold bind at 1, call_hash in Hrun.
      destruct (hash self key) as [hv|e].
      * destruct (_set_item _ _ _ _ self) as [[r1 self1]|] eqn:Hset;
          [|discriminate].
        apply _set_item_result in Hset as (i & _ & -> & ->);
          [|assumption|now apply _calculate_position_range].
        apply IH in Hrun as (? & ? & ?); [|now apply wf_placed].
        auto.
      * injection Hrun as <- <-. auto.
Qed.

Lemma _resize_frame self r self' :
  wf self ->
  _resize self = Some (r, self') ->
  wf self' /\ _size self' = _size self * 4 /\ hash self' = hash self.
Proof.
  intros (Hs & _ & _) Hrun. unfold _resize in Hrun.
  apply _reposition_frame in Hrun; [assumption|].
  unfold wf. cbn. rewrite !length_replicate. repeat split; lia.
Qed.

(** ** put, then get *)

Lemma acceptable_key_not_None key :
  is_acceptable_key key = true -> key <> PyNone.
Proof. intros Hkey ->. discriminate. Qed.

Section PutGet.
Variables (self : Hash) (key value : pyobj) (hv : Z).
Hypothesis Hwf : wf self.
Hypothesis Hkey : is_acceptable_key key = true.
Hypothesis Hhash : hash self key = Ok hv.

Let p := _calculate_position self hv.

(** The slots a placement ran over are the ones a later search runs
    over, and it ends on the slot that now holds the key. *)
Lemma placement_stops_placed i :
  placement_stops self p key i ->
  placement_stops (placed self (probe_seq self p i) key value) p key i /\
  getitem (_keys (placed self (probe_seq self p i) key value))
          (probe_seq self p i) = Ok key.
Proof.
  intros [Hb (k & Hk & Hs)].
  pose proof (probe_seq_range self Hwf p i) as Hri.
  assert (Hat : getitem (_keys (placed self (probe_seq self p i) key value))
                  (probe_seq self p i) = Ok key).
  { apply getitem_lookup; cbn [_keys placed].
    - rewrite length_insert, wf_keys_length; assumption.
    - apply list_lookup_insert_eq.
      pose proof (wf_keys_length self Hwf). lia. }
  split; [|exact Hat]. split.
  - intros j Hj. destruct (Hb j Hj) as (kj & Hkj & Hsj).
    exists kj. split; [|assumption].
    pose proof (probe_seq_range self Hwf p j) as Hrj.
    change (probe_seq (placed self (probe_seq self p i) key value) p j)
      with (probe_seq self p j).
    apply getitem_lookup; cbn [_keys placed].
    + rewrite length_insert, wf_keys_length; assumption.
    + rewrite list_lookup_insert_ne.
      * apply getitem_lookup; [rewrite wf_keys_length|]; assumption.
      * intros Heq. apply Z2Nat.inj in Heq; try lia.
        rewrite Heq in Hk. congruence.
  - exists key. split; [exact Hat|].
    apply stops_placement_true. now right.
Qed.

Lemma get_placed i :
  placement_stops self p key i ->
  get key (placed self (probe_seq self p i) key value)
  = Some (Ok value, placed self (probe_seq self p i) key value).
Proof.
  intros Hstop.
  destruct (placement_stops_placed i Hstop) as [Hstop' Hat].
  pose proof (probe_seq_range self Hwf p i) as Hri.
  set (self' := placed self (probe_seq self p i) key value) in *.
  assert (Hwf' : wf self') by now apply wf_placed.
  unfold get, bind.
  rewrite (_get_pos_stops self' Hwf' key hv Hkey Hhash i Hstop').
  change (probe_seq self' (_calculate_position self' hv) i)
    with (probe_seq self p i).
  unfold lookup_result. rewrite Hat.
  pose proof (acceptable_key_not_None key Hkey) as Hne.
  apply py_eq_false in Hne. rewrite Hne.
  unfold load_value. f_equal. f_equal.
  apply getitem_lookup; subst self'; cbn [_values placed].
  - rewrite length_insert, wf_values_length; assumption.
  - apply list_lookup_insert_eq.
    pose proof (wf_values_length self Hwf). lia.
Qed.
End PutGet.

(** What a [put] that returns normally has done: it grew the table if
    [should_expand] said so, and placed the key where its probe stops. *)
Lemma put_result self key value self' :
  wf self ->
  put key value self = Some (Ok tt, self') ->
  exists self1 hv i,
    (if should_expand self then _resize self = Some (Ok tt, self1)
     else self1 = self) /\
    wf self1 /\
    is_acceptable_key key = true /\
    hash self1 key = Ok hv /\
    placement_stops self1 (_calculate_position self1 hv) key i /\
    self' = placed self1 (probe_seq self1 (_calculate_position self1 hv) i)
                   key value.
Proof.
  intros Hwf Hrun. unfold put, raise_if_not_acceptable_key in Hrun.
  destruct (is_acceptable_key key) eqn:Hkey; cbn [negb] in Hrun;
    [|discriminate].
  unfold bind at 1, ret in Hrun. unfold bind at 1 in Hrun.
  assert (Hgrow : exists self1,
            (if should_expand self then _resize self = Some (Ok tt, self1)
             else self1 = self) /\ wf self1 /\
            (hashvalue <- call_hash key ;;
             fun self =>
               let position := _calculate_position self hashvalue in
               _set_item (probe_fuel self) position key value self) self1
            = Some (Ok tt, self')).
  { destruct (should_expand self).
    - destruct (_resize self) as [[[[] | e] self1]|] eqn:Hres;
        try discriminate.
      exists self1. split; [reflexivity|]. split; [|assumption].
      now apply _resize_frame in Hres.
    - exists self. auto. }
  clear Hrun. destruct Hgrow as (self1 & Hgrow & Hwf1 & Hrun).
  unfold bind at 1, call_hash in Hrun.
  destruct (hash self1 key) as [hv|e] eqn:Hhash; [|discriminate].
  apply _set_item_result in Hrun as (i & Hstop & _ & ->);
    [|assumption|now apply _calculate_position_range].
  exists self1, hv, i.
  repeat (split; [first [assumption | reflexivity]|]). reflexivity.
Qed.

(** C1. Round-trip: when [put(K, V)] returns (its probes and those of a
    growth it triggers terminate), [get(K)] on the table it leaves
    returns [V]. *)
Theorem put_then_get self key value self' :
  wf self ->
  is_acceptable_key key = true ->
  put key value self = Some (Ok tt, self') ->
  get key self' = Some (Ok value, self').
Proof.
  intros Hwf Hkey Hrun.
  apply put_result in Hrun
    as (self1 & hv & i & _ & Hwf1 & _ & Hhash & Hstop & ->); [|assumption].
  now apply get_placed.
Qed.

Lemma put_then_get_witness :
  wf new_Hash /\ is_acceptable_key (PyStr "abc") = true /\
  put (PyStr "abc") (PyInt 7) new_Hash
  = Some (Ok tt, placed new_Hash 3 (PyStr "abc") (PyInt 7)) /\
  get (PyStr "abc") (placed new_Hash 3 (PyStr "abc") (PyInt 7))
  = Some (Ok (PyInt 7), placed new_Hash 3 (PyStr "abc") (PyInt 7)).
Proof.
  split; [exact wf_new_Hash|]. split; [reflexivity|]. split; [reflexivity|].
  apply (put_then_get new_Hash (PyStr "abc") (PyInt 7)).
  - exact wf_new_Hash.
  - reflexivity.
  - reflexivity.
Defined.

(** ** Hashing *)

Lemma custom_hash_loop_fold s : forall result,
  custom_hash_loop result s
  = fold_left (fun accumulator char => 33 * accumulator + ord char)
              (list_ascii_of_string s) result.
Proof.
  induction s as [|char s IH]; intros result; [reflexivity|].
  cbn [custom_hash_loop list_ascii_of_string fold_left]. apply IH.
Qed.

Lemma ord_nonneg char : 0 <= ord char.
Proof. unfold ord. lia. Qed.

Lemma custom_hash_loop_lower s : forall result,
  0 <= result ->
  result * 33 ^ Z.of_nat (String.length s) <= custom_hash_loop result s.
Proof.
  induction s as [|char s IH]; intros result Hres.
  - cbn. lia.
  - cbn [custom_hash_loop String.length].
    pose proof (ord_nonneg char) as Hc.
    specialize (IH (33 * result + ord char) ltac:(lia)).
    rewrite Nat2Z.inj_succ, Z.pow_succ_r by lia.
    assert (0 <= 33 ^ Z.of_nat (String.length s)) by (apply Z.pow_nonneg; lia).
    nia.
Qed.

(** C7. The hash of an integer is the integer; the hash of a text is the
    accumulation from 5381 of [33 * accumulator + code point] over its
    characters in order.  Nothing is reduced on the way: the hash of a
    text of [n] characters is at least [5381 * 33^n]. *)
Theorem custom_hash_spec :
  (forall n, custom_hash (PyInt n) = Ok n) /\
  (forall s,
     custom_hash (PyStr s)
     = Ok (fold_left (fun accumulator char => 33 * accumulator + ord char)
                     (list_ascii_of_string s) 5381)) /\
  (forall s, exists h,
     custom_hash (PyStr s) = Ok h /\
     5381 * 33 ^ Z.of_nat (String.length s) <= h).
Proof.
  split; [reflexivity|]. split.
  - intros s. cbn. now rewrite custom_hash_loop_fold.
  - intros s. eexists. split; [reflexivity|].
    apply custom_hash_loop_lower. lia.
Qed.

Example custom_hash_abc : custom_hash (PyStr "abc") = Ok 193485963.
Proof. reflexivity. Qed.

(** ** Keys of another kind *)

(** C10. A key that is neither an integer nor a text makes [put], [get]
    and [delete] raise [TypeError], and the table is as it was. *)
Theorem unacceptable_key_rejected self key value :
  is_acceptable_key key = false ->
  put key value self = Some (Raise TypeError, self) /\
  get key self = Some (Raise TypeError, self) /\
  delete key self = Some (Raise TypeError, self).
Proof.
  intros Hkey.
  unfold put, get, delete, _get_pos, raise_if_not_acceptable_key.
  rewrite Hkey. repeat split.
Qed.

(** The float 3.14 is [7070651414971679 * 2^-51]. *)
Lemma unacceptable_key_rejected_witness :
  is_acceptable_key (PyFloat 7070651414971679 (-51)) = false /\
  put (PyFloat 7070651414971679 (-51)) (PyStr "x") new_Hash
  = Some (Raise TypeError, new_Hash) /\
  get (PyFloat 7070651414971679 (-51)) new_Hash
  = Some (Raise TypeError, new_Hash) /\
  delete (PyFloat 7070651414971679 (-51)) new_Hash
  = Some (Raise TypeError, new_Hash).
Proof.
  split; [reflexivity|].
  apply (unacceptable_key_rejected new_Hash
           (PyFloat 7070651414971679 (-51)) (PyStr "x")).
  reflexivity.
Defined.

(** ** The constructor *)

(** C6. [Hash(size=16, hashfunction=f)] is a table of 8 slots that
    hashes with [custom_hash]: both arguments are dropped.  With a
    constant hash the key 5 would go to slot 0; it goes to slot 5. *)
Theorem __init___ignores_arguments :
  (forall size hashfunction, __init__ size hashfunction = new_Hash) /\
  let self := __init__ 16 (fun _ => Ok 0) in
  _size self = 8 /\
  length (_keys self) = 8%nat /\
  hash self = custom_hash /\
  exists self',
    put (PyInt 5) (PyStr "v") self = Some (Ok tt, self') /\
    _keys self' !! 5%nat = Some (PyInt 5) /\
    _keys self' !! 0%nat = Some PyNone.
Proof.
  split; [reflexivity|].
  cbv zeta. repeat split. eexists. repeat split.
Qed.

(** ** Overwriting a key *)

(** C2. After [put(1, "a")] and [put(1, "b")] on a new table [get(1)] is
    ["b"] and one slot holds a key, but [_used_slots] is 2: the second
    [put] counted the slot again. *)
Theorem overwrite_counts_twice :
  exists self',
    (put (PyInt 1) (PyStr "a") ;;; put (PyInt 1) (PyStr "b")) new_Hash
    = Some (Ok tt, self') /\
    get (PyInt 1) self' = Some (Ok (PyStr "b"), self') /\
    live_slots self' = 1%nat /\
    _used_slots self' = _used_slots new_Hash + 2.
Proof. eexists. repeat split. Qed.

(** ** The scenario of six texts *)

(** C3 as the specification has it does not hold: the six insertions
    leave a table of 8 slots, not 32. *)
Lemma six_puts_do_not_grow :
  ~ exists self', six_puts new_Hash = Some (Ok tt, self') /\ _size self' = 32.
Proof.
  intros (self' & Hrun & Hsize).
  vm_compute in Hrun. injection Hrun as <-. discriminate.
Qed.

(** C3, amended. The sixth [put] checks the load before it places its
    key and finds 5/8, so the table keeps its 8 slots and the six keys
    are read back with their values.  It is a seventh [put] that finds
    6/8 and grows the table to 32 slots, and the six keys are read back
    with their values then, too. *)
Theorem six_puts_scenario :
  exists self5 self6 self7,
    (put (PyStr "a") (PyInt 1) ;;; put (PyStr "b") (PyInt 2) ;;;
     put (PyStr "c") (PyInt 3) ;;; put (PyStr "d") (PyInt 4) ;;;
     put (PyStr "e") (PyInt 5)) new_Hash = Some (Ok tt, self5) /\
    should_expand self5 = false /\
    put (PyStr "f") (PyInt 6) self5 = Some (Ok tt, self6) /\
    six_puts new_Hash = Some (Ok tt, self6) /\
    _size self6 = 8 /\
    six_gets self6
    = Some (Ok [PyInt 1; PyInt 2; PyInt 3; PyInt 4; PyInt 5; PyInt 6], self6) /\
    should_expand self6 = true /\
    put (PyStr "g") (PyInt 7) self6 = Some (Ok tt, self7) /\
    _size self7 = 32 /\
    six_gets self7
    = Some (Ok [PyInt 1; PyInt 2; PyInt 3; PyInt 4; PyInt 5; PyInt 6], self7).
Proof.
  do 3 eexists.
  split; [vm_compute; reflexivity|].
  split; [reflexivity|].
  split; [vm_compute; reflexivity|].
  split; [vm_compute; reflexivity|].
  split; [reflexivity|].
  split; [vm_compute; reflexivity|].
  split; [reflexivity|].
  split; [vm_compute; reflexivity|].
  split; [reflexivity|].
  vm_compute; reflexivity.
Qed.

(** ** The counters *)

(** C4. Six insertions and six deletions on a new table leave
    [_used_slots = 6] and [_dummy_slots = 6] in a table of 8 slots:
    [delete] counts the slot as deleted and still as used. *)
Theorem counters_exceed_size :
  exists self',
    run [Put (PyInt 1) (PyStr "a"); Put (PyInt 2) (PyStr "b");
         Put (PyInt 3) (PyStr "c"); Put (PyInt 4) (PyStr "d");
         Put (PyInt 5) (PyStr "e"); Put (PyInt 6) (PyStr "f");
         Delete (PyInt 1); Delete (PyInt 2); Delete (PyInt 3);
         Delete (PyInt 4); Delete (PyInt 5); Delete (PyInt 6)] new_Hash
    = Some self' /\
    _size self' = 8 /\
    _used_slots self' = 6 /\
    _dummy_slots self' = 6 /\
    live_slots self' = 0%nat /\
    ~ (0 <= _used_slots self' + _dummy_slots self' <= _size self').
Proof.
  eexists. split; [vm_compute; reflexivity|].
  repeat split. cbn. lia.
Qed.

(** ** Deletion *)

(** What a search that returns has done. *)
Lemma _get_pos_result self key r self' :
  wf self ->
  _get_pos key self = Some (r, self') ->
  self' = self /\
  ((is_acceptable_key key = false /\ r = Raise TypeError) \/
   (is_acceptable_key key = true /\
    exists e, hash self key = Raise e /\ r = Raise e) \/
   (is_acceptable_key key = true /\
    exists hv i,
      hash self key = Ok hv /\
      placement_stops self (_calculate_position self hv) key i /\
      r = lookup_result self
            (probe_seq self (_calculate_position self hv) i))).
Proof.
  intros Hwf Hrun.
  destruct (is_acceptable_key key) eqn:Hkey.
  - destruct (hash self key) as [hv|e] eqn:Hhash.
    + destruct (_get_pos_inv self Hwf key hv Hkey Hhash _ Hrun) as (i & Hstop).
      rewrite (_get_pos_stops self Hwf key hv Hkey Hhash i Hstop) in Hrun.
      injection Hrun as <- <-. split; [reflexivity|].
      right. right. split; [reflexivity|]. eauto.
    + unfold _get_pos, raise_if_not_acceptable_key in Hrun.
      rewrite Hkey in Hrun. cbn [negb] in Hrun.
      unfold bind at 1, ret in Hrun. unfold bind at 1, call_hash in Hrun.
      rewrite Hhash in Hrun. injection Hrun as <- <-.
      split; [reflexivity|]. right. left. eauto.
  - unfold _get_pos, raise_if_not_acceptable_key in Hrun.
    rewrite Hkey in Hrun. injection Hrun as <- <-. auto.
Qed.

Lemma lookup_result_Ok self q q' :
  lookup_result self q = Ok q' ->
  q' = q /\ exists k, getitem (_keys self) q = Ok k /\ k <> PyNone.
Proof.
  unfold lookup_result. destruct (getitem (_keys self) q) as [k|e];
    [|discriminate].
  destruct (py_eq k PyNone) eqn:Hnone; [discriminate|].
  intros [= <-]. apply py_eq_false in Hnone. eauto.
Qed.



(** C9. [delete] does not delete every key that is present: after
    [put(0)], [put(8)] and [delete(0)] the key 8 is still in slot 6
    with its value, and [delete(8)] raises [KeyError] and changes
    nothing, because the search stops at the emptied slot 0.  The
    docstring of [delete] is "Deletes the key if present.  KeyError is
    raised if Key is missing". *)
Lemma delete_misses_stored_key :
  exists self,
    run [Put (PyInt 0) (PyStr "a"); Put (PyInt 8) (PyStr "b");
         Delete (PyInt 0)] new_Hash = Some self /\
    _keys self !! 6%nat = Some (PyInt 8) /\
    _values self !! 6%nat = Some (PyStr "b") /\
    delete (PyInt 8) self = Some (Raise KeyError, self).
Proof. eexists. split; [vm_compute; reflexivity|]. repeat split. Qed.

(** A search for a key that is not stored need not stop: with the
    keys 0, 2, 4 and 6 stored, the probe for 8 goes round the even
    slots, one nested call per slot, and only the recursion limit of
    the interpreter ends it. *)
Example delete_absent_key_may_not_return :
  exists self,
    run [Put (PyInt 0) (PyStr "a"); Put (PyInt 2) (PyStr "b");
         Put (PyInt 4) (PyStr "c"); Put (PyInt 6) (PyStr "d")] new_Hash
    = Some self /\
    delete (PyInt 8) self = None /\
    get (PyInt 8) self = None /\
    put (PyInt 8) (PyStr "e") self = None.
Proof. eexists. split; [vm_compute; reflexivity|]. repeat split. Qed.



(** ** Keys that can be found again *)

Lemma chained_unique_keys self : chained self -> unique_keys self.
Proof.
  intros [Hwf Hch] q q' k Hq Hq' Hne.
  destruct (Hch q k Hq Hne) as (_ & hv & i & Hhash & Hstop & Hi).
  destruct (Hch q' k Hq' Hne) as (_ & hv' & i' & Hhash' & Hstop' & Hi').
  assert (hv' = hv) as -> by congruence.
  assert (i' = i) as -> by eauto using placement_stops_unique.
  lia.
Qed.

Lemma lookup_getitem self (q : nat) k :
  wf self -> _keys self !! q = Some k ->
  getitem (_keys self) (Z.of_nat q) = Ok k.
Proof.
  intros Hwf Hq. apply getitem_lookup.
  - apply lookup_lt_Some in Hq. lia.
  - now rewrite Nat2Z.id.
Qed.

Lemma chained_placed self key value hv i :
  chained self ->
  is_acceptable_key key = true ->
  hash self key = Ok hv ->
  placement_stops self (_calculate_position self hv) key i ->
  chained (placed self (probe_seq self (_calculate_position self hv) i)
                  key value).
Proof.
  intros [Hwf Hch] Hkey Hhash Hstop.
  set (p := _calculate_position self hv) in *.
  set (q0 := probe_seq self p i).
  pose proof (probe_seq_range self Hwf p i) as Hq0. fold q0 in Hq0.
  pose proof (wf_keys_length self Hwf) as Hlen.
  destruct (placement_stops_placed self key value hv Hwf Hkey i Hstop)
    as [Hstop' _]. fold p q0 in Hstop'.
  split; [now apply wf_placed|].
  intros q k Hq Hne. cbn [_keys placed hash] in Hq |- *.
  destruct (decide (q = Z.to_nat q0)) as [->|Hqq0].
  - rewrite list_lookup_insert_eq in Hq by lia. injection Hq as <-.
    split; [assumption|]. exists hv, i.
    split; [assumption|]. split; [exact Hstop'|].
    change (probe_seq (placed self q0 key value)
              (_calculate_position (placed self q0 key value) hv) i)
      with q0. lia.
  - rewrite list_lookup_insert_ne in Hq by congruence.
    destruct (Hch q k Hq Hne) as (Hk & hv' & i' & Hhash' & Hstop1 & Hi').
    assert (Hkk : key <> k).
    { intros <-. assert (hv' = hv) as -> by congruence.
      assert (i' = i) as -> by eauto using placement_stops_unique.
      fold p q0 in Hi'. lia. }
    split; [assumption|]. exists hv', i'.
    split; [assumption|]. split; [|exact Hi'].
    set (p' := _calculate_position self hv') in *.
    change (_calculate_position (placed self q0 key value) hv') with p'.
    destruct Hstop1 as [Hb (k1 & Hk1 & Hs1)]. split.
    + intros j Hj. destruct (Hb j Hj) as (kj & Hkj & Hsj).
      pose proof (probe_seq_range self Hwf p' j) as Hrj.
      change (probe_seq (placed self q0 key value) p' j)
        with (probe_seq self p' j).
      destruct (decide (probe_seq self p' j = q0)) as [Heq|Hneq].
      * exists key. split.
        -- rewrite Heq. apply getitem_lookup; cbn [_keys placed].
           ++ rewrite length_insert. lia.
           ++ apply list_lookup_insert_eq. lia.
        -- apply stops_placement_false. split; [|assumption].
           now apply acceptable_key_not_None.
      * exists kj. split; [|assumption].
        apply getitem_lookup; cbn [_keys placed].
        -- rewrite length_insert. lia.
        -- rewrite list_lookup_insert_ne.
           ++ apply getitem_lookup; [lia|assumption].
           ++ intros Heq. apply Z2Nat.inj in Heq; lia.
    + exists k. change (probe_seq (placed self q0 key value) p' i')
        with (probe_seq self p' i').
      rewrite Hi'. split.
      * apply getitem_lookup; cbn [_keys placed].
        -- rewrite length_insert. apply lookup_lt_Some in Hq. lia.
        -- rewrite Nat2Z.id. now rewrite list_lookup_insert_ne by congruence.
      * apply stops_placement_true. now right.
Qed.

(** A table of empty slots. *)
Lemma chained_empty size f :
  0 < size ->
  chained (mkHash size 0 0 (replicate (Z.to_nat size) PyNone)
                  (replicate (Z.to_nat size) PyNone) f).
Proof.
  intros Hs. split.
  - unfold wf. cbn. now rewrite !length_replicate.
  - intros q k Hq Hne. cbn in Hq.
    apply lookup_replicate in Hq as [-> _]. congruence.
Qed.

Lemma chained_new_Hash : chained new_Hash.
Proof. apply (chained_empty 8 custom_hash). lia. Qed.

Lemma chained__set_item self n key value hv r self' :
  chained self ->
  is_acceptable_key key = true ->
  hash self key = Ok hv ->
  _set_item n (_calculate_position self hv) key value self = Some (r, self') ->
  chained self'.
Proof.
  intros Hch Hkey Hhash Hrun.
  apply _set_item_result in Hrun as (i & Hstop & _ & ->).
  - now apply chained_placed.
  - apply Hch.
  - apply _calculate_position_range, Hch.
Qed.

Lemma chained__reposition kvs : forall self r self',
  chained self ->
  Forall (fun kv => kv.1 = PyNone \/ is_acceptable_key kv.1 = true) kvs ->
  _reposition kvs self = Some (r, self') ->
  chained self'.
Proof.
  induction kvs as [|[key value] kvs IH]; intros self r self' Hch Hkvs Hrun.
  - injection Hrun as <- <-. assumption.
  - apply Forall_cons in Hkvs as [Hkv Hkvs]. cbn [fst] in Hkv.
    cbn [_reposition] in Hrun. unfold bind at 1 in Hrun.
    destruct (py_eq key PyNone) eqn:Hnone; cbn [negb] in Hrun.
    + now apply IH in Hrun.
    + apply py_eq_false in Hnone. destruct Hkv as [?|Hkey]; [contradiction|].
      unfold bind at 1, call_hash in Hrun.
      destruct (hash self key) as [hv|e] eqn:Hhash.
      * destruct (_set_item _ _ _ _ self) as [[r1 self1]|] eqn:Hset;
          [|discriminate].
        pose proof (chained__set_item _ _ _ _ _ _ _ Hch Hkey Hhash Hset)
          as Hch1.
        destruct r1 as [[]|e].
        -- now apply IH in Hrun.
        -- injection Hrun as <- <-. assumption.
      * injection Hrun as <- <-. assumption.
Qed.

Lemma chained_keys_acceptable self :
  chained self ->
  Forall (fun kv => kv.1 = PyNone \/ is_acceptable_key kv.1 = true)
         (zip (_keys self) (_values self)).
Proof.
  intros [_ Hch]. apply Forall_forall. intros [k v] Hin. cbn [fst].
  apply elem_of_zip_l in Hin. apply list_elem_of_lookup in Hin as [q Hq].
  destruct (decide (k = PyNone)) as [|Hne]; [now left|right].
  now destruct (Hch q k Hq Hne).
Qed.

Lemma chained__resize self r self' :
  chained self -> _resize self = Some (r, self') -> chained self'.
Proof.
  intros Hch Hrun. unfold _resize in Hrun. cbv zeta in Hrun.
  pose proof (chained_keys_acceptable self Hch) as Hkvs.
  refine (chained__reposition _ _ _ _ _ Hkvs Hrun).
  apply chained_empty. destruct Hch as [(Hs & _) _]. lia.
Qed.

Lemma chained_put self key value r self' :
  chained self -> put key value self = Some (r, self') -> chained self'.
Proof.
  intros Hch Hrun. unfold put, raise_if_not_acceptable_key in Hrun.
  destruct (is_acceptable_key key) eqn:Hkey; cbn [negb] in Hrun.
  - unfold bind at 1, ret in Hrun. unfold bind at 1 in Hrun.
    assert (Hgrow : exists (r1 : res unit) self1,
              chained self1 /\
              match r1 with
              | Ok _ =>
                  (hashvalue <- call_hash key ;;
                   fun self =>
                     let position := _calculate_position self hashvalue in
                     _set_item (probe_fuel self) position key value self) self1
                  = Some (r, self')
              | Raise e => Some (Raise e, self1) = Some (r, self')
              end).
    { destruct (should_expand self).
      - destruct (_resize self) as [[r1 self1]|] eqn:Hres; [|discriminate].
        exists r1, self1. split; [now apply chained__resize in Hres|].
        now destruct r1.
      - exists (Ok tt), self. auto. }
    clear Hrun. destruct Hgrow as (r1 & self1 & Hch1 & Hrun).
    destruct r1 as [[]|e]; [|now injection Hrun as <- <-].
    unfold bind at 1, call_hash in Hrun.
    destruct (hash self1 key) as [hv|e] eqn:Hhash;
      [|now injection Hrun as <- <-].
    eapply chained__set_item; eassumption.
  - now injection Hrun as <- <-.
Qed.

Lemma get_frame self key r self' :
  wf self -> get key self = Some (r, self') -> self' = self.
Proof.
  intros Hwf Hrun. unfold get in Hrun. unfold bind at 1 in Hrun.
  destruct (_get_pos key self) as [[r1 self1]|] eqn:Hpos; [|discriminate].
  apply _get_pos_result in Hpos as [-> _]; [|assumption].
  destruct r1; unfold load_value in Hrun; congruence.
Qed.

Lemma chained_run ops : forall self self',
  chained self ->
  forallb (fun o => negb (is_delete o)) ops = true ->
  run ops self = Some self' ->
  chained self'.
Proof.
  induction ops as [|o ops IH]; intros self self' Hch Hops Hrun.
  - now injection Hrun as <-.
  - cbn [forallb] in Hops. apply andb_true_iff in Hops as [Ho Hops].
    cbn [run] in Hrun.
    destruct (step o self) as [self1|] eqn:Hstep; [|discriminate].
    apply (IH self1); [|assumption..].
    destruct o as [key value|key|key]; [| |discriminate];
      cbn [step] in Hstep; unfold exec in Hstep.
    + destruct (put key value self) as [[r s]|] eqn:Hput; [|discriminate].
      injection Hstep as <-. now apply chained_put in Hput.
    + destruct (get key self) as [[r s]|] eqn:Hget; [|discriminate].
      injection Hstep as <-. apply get_frame in Hget as ->; [assumption|].
      apply Hch.
Qed.

(** C5 as the specification has it does not hold: after [put(0)],
    [put(8)], [delete(0)] and [put(8)] the key 8 is in slot 0 and in
    slot 6.  The second [put(8)] stops at the slot that [delete(0)]
    emptied and does not reach slot 6. *)
Lemma put_after_delete_duplicates_key :
  exists self,
    run [Put (PyInt 0) (PyStr "a"); Put (PyInt 8) (PyStr "b");
         Delete (PyInt 0); Put (PyInt 8) (PyStr "c")] new_Hash = Some self /\
    _keys self !! 0%nat = Some (PyInt 8) /\
    _keys self !! 6%nat = Some (PyInt 8) /\
    ~ unique_keys self.
Proof.
  eexists. split; [vm_compute; reflexivity|]. repeat split.
  intros Huniq. specialize (Huniq 0%nat 6%nat (PyInt 8) eq_refl eq_refl).
  discriminate Huniq. discriminate.
Qed.

(** C5, amended. After every sequence of [put] and [get] calls on a new
    table that ran to its end, no key is in two slots, and every stored
    key is reached by the probe from its home slot. *)
Theorem unique_keys_without_delete ops self' :
  forallb (fun o => negb (is_delete o)) ops = true ->
  run ops new_Hash = Some self' ->
  unique_keys self' /\ chained self'.
Proof.
  intros Hops Hrun.
  assert (chained self') by eauto using chained_run, chained_new_Hash.
  auto using chained_unique_keys.
Qed.

Lemma unique_keys_without_delete_witness :
  forallb (fun o => negb (is_delete o))
          [Put (PyInt 0) (PyStr "a"); Put (PyInt 8) (PyStr "b");
           Get (PyInt 8); Put (PyInt 8) (PyStr "c")] = true /\
  exists self',
    run [Put (PyInt 0) (PyStr "a"); Put (PyInt 8) (PyStr "b");
         Get (PyInt 8); Put (PyInt 8) (PyStr "c")] new_Hash = Some self' /\
    _keys self' !! 6%nat = Some (PyInt 8) /\
    unique_keys self' /\ chained self'.
Proof.
  split; [reflexivity|]. eexists.
  split; [vm_compute; reflexivity|]. split; [reflexivity|].
  apply (unique_keys_without_delete
           [Put (PyInt 0) (PyStr "a"); Put (PyInt 8) (PyStr "b");
            Get (PyInt 8); Put (PyInt 8) (PyStr "c")]).
  - reflexivity.
  - vm_compute; reflexivity.
Defined.

(** ** How far a probe gets *)

(** In a table of an even size that 3 does not divide the first
    [_size / 2] slots of a probe are different slots. *)
Lemma probe_seq_inj self p (j j' : nat) :
  0 < _size self ->
  _size self mod 2 = 0 ->
  _size self mod 3 <> 0 ->
  2 * Z.of_nat j < _size self ->
  2 * Z.of_nat j' < _size self ->
  probe_seq self p j = probe_seq self p j' ->
  j = j'.
Proof.
  intros Hpos Heven H3 Hj Hj' Heq. unfold probe_seq in Heq.
  set (s := _size self) in *.
  set (m := s / 2).
  assert (Hs : s = 2 * m).
  { unfold m. pose proof (Z.div_mod s 2 ltac:(lia)). lia. }
  set (d := Z.of_nat j - Z.of_nat j').
  assert (Hdiv : (s | 6 * d)).
  { exists ((p + 6 * Z.of_nat j) / s - (p + 6 * Z.of_nat j') / s).
    pose proof (Z.div_mod (p + 6 * Z.of_nat j) s ltac:(lia)) as E1.
    pose proof (Z.div_mod (p + 6 * Z.of_nat j') s ltac:(lia)) as E2.
    rewrite Heq in E1. unfold d. lia. }
  assert (Hdiv' : (m | 3 * d)).
  { destruct Hdiv as [t Ht]. exists t. lia. }
  assert (Hrel : Z.gcd m 3 = 1).
  { rewrite Z.gcd_comm. apply Z.coprime_prime_l; [exact Z.prime_3|].
    intros [t Ht]. apply H3. rewrite Hs, Ht.
    replace (2 * (t * 3)) with (2 * t * 3) by lia. apply Z.mod_mul. lia. }
  apply Z.gauss in Hdiv'; [|assumption].
  destruct (Z.eq_dec d 0) as [Hd|Hd]; [unfold d in Hd; lia|].
  apply Z.absle_divide in Hdiv'; [|assumption].
  unfold d in *. lia.
Qed.

(** Within [n] slots a placement stops, or all of them hold other keys. *)
Lemma placement_stops_or_collides self p key :
  wf self -> forall n : nat,
  (exists i, (i < n)%nat /\ placement_stops self p key i) \/
  (forall j, (j < n)%nat ->
     exists k, getitem (_keys self) (probe_seq self p j) = Ok k /\
               stops_placement key k = false).
Proof.
  intros Hwf. induction n as [|n [(i & Hi & Hstop)|Hall]].
  - right. intros j Hj. lia.
  - left. exists i. split; [lia|assumption].
  - destruct (slot_key_defined self Hwf _ (probe_seq_range self Hwf p n))
      as (k & Hk).
    destruct (stops_placement key k) eqn:Hs.
    + left. exists n. split; [lia|]. split; [assumption|eauto].
    + right. intros j Hj.
      destruct (decide (j = n)) as [->|Hne]; [eauto|].
      apply Hall. lia.
Qed.

(** A placement stops when fewer than half of the slots hold a key. *)
Lemma placement_terminates self p key occ :
  wf self ->
  _size self mod 2 = 0 ->
  _size self mod 3 <> 0 ->
  covers self occ ->
  2 * Z.of_nat (length occ) < _size self ->
  exists i, placement_stops self p key i.
Proof.
  intros Hwf Heven H3 Hocc Hlen.
  pose proof Hwf as (Hpos & _ & _).
  set (m := Z.to_nat (_size self / 2)).
  assert (Hm : 2 * Z.of_nat m = _size self).
  { unfold m. pose proof (Z.div_mod (_size self) 2 ltac:(lia)). lia. }
  destruct (placement_stops_or_collides self p key Hwf m)
    as [(i & _ & Hstop)|Hall]; [eauto|exfalso].
  set (slots := (fun j => Z.to_nat (probe_seq self p j)) <$> seq 0 m).
  assert (Hnodup : NoDup slots).
  { apply NoDup_fmap_2_strong; [|apply NoDup_seq].
    intros j j' Hj Hj' Heq.
    apply elem_of_seq in Hj, Hj'.
    pose proof (probe_seq_range self Hwf p j).
    pose proof (probe_seq_range self Hwf p j').
    apply (probe_seq_inj self p); try assumption; lia. }
  assert (Hsub : forall q, q ∈ slots -> q ∈ occ).
  { intros q Hq. apply list_elem_of_fmap in Hq as (j & -> & Hj).
    apply elem_of_seq in Hj.
    destruct (Hall j ltac:(lia)) as (k & Hk & Hs).
    apply stops_placement_false in Hs as [Hnone _].
    apply (Hocc _ k); [|assumption].
    apply getitem_lookup; [|assumption].
    rewrite wf_keys_length by assumption. now apply probe_seq_range. }
  apply NoDup_submseteq in Hsub; [|assumption].
  apply submseteq_length in Hsub.
  unfold slots in Hsub. rewrite length_fmap, length_seq in Hsub. lia.
Qed.

(** ** Growth *)

Lemma custom_hash_acceptable key :
  is_acceptable_key key = true -> exists hv, custom_hash key = Ok hv.
Proof. destruct key; try discriminate; cbn; eauto. Qed.

Lemma count_live_zip ks : forall vs,
  length vs = length ks ->
  count_live (zip ks vs) = length (filter (fun k => k <> PyNone) ks).
Proof.
  unfold count_live.
  induction ks as [|k ks IH]; intros [|v vs] Hlen; try discriminate;
    [reflexivity|].
  cbn [zip zip_with]. rewrite !filter_cons. cbn [fst].
  injection Hlen as Hlen. specialize (IH vs Hlen).
  destruct (decide (k <> PyNone)); cbn [length]; now rewrite IH.
Qed.

Lemma last_value_Some kvs k v :
  last_value kvs k = Some v -> exists q, kvs !! q = Some (k, v).
Proof.
  induction kvs as [|[k' v'] kvs IH]; [discriminate|].
  cbn [last_value]. destruct (last_value kvs k) as [v0|].
  - intros [= ->]. destruct IH as [q Hq]; [reflexivity|]. now exists (S q).
  - destruct (py_eq k' k) eqn:Heq; [|discriminate].
    apply py_eq_true in Heq as ->. intros [= ->]. now exists 0%nat.
Qed.

Lemma last_value_lookup ks : forall vs (q : nat) k v,
  ks !! q = Some k -> vs !! q = Some v ->
  (forall q' : nat, (q < q')%nat -> ks !! q' <> Some k) ->
  last_value (zip ks vs) k = Some v.
Proof.
  induction ks as [|k0 ks IH]; intros [|v0 vs] q k v Hk Hv Hlast;
    try (rewrite lookup_nil in Hk; discriminate);
    try (rewrite lookup_nil in Hv; discriminate).
  cbn [zip zip_with last_value]. destruct q as [|q].
  - injection Hk as ->. injection Hv as ->.
    destruct (last_value (zip_with pair ks vs) k) as [v'|] eqn:Hl.
    + apply last_value_Some in Hl as [q' Hq'].
      apply lookup_zip_with_Some in Hq' as (k1 & v1 & [= <- <-] & Hk1 & _).
      now destruct (Hlast (S q') ltac:(lia)).
    + now rewrite py_eq_refl.
  - rewrite (IH vs q k v); [reflexivity|assumption..|].
    intros q' Hq'. apply (Hlast (S q')). lia.
Qed.

Lemma stored_placed self q0 key value :
  wf self -> 0 <= q0 < _size self ->
  stored (placed self q0 key value) key value.
Proof.
  intros Hwf Hq0. exists (Z.to_nat q0). cbn [_keys _values placed].
  pose proof (wf_keys_length self Hwf).
  pose proof (wf_values_length self Hwf).
  split; apply list_lookup_insert_eq; lia.
Qed.

Lemma stored_placed_other self q0 key value k0 k v :
  getitem (_keys self) q0 = Ok k0 ->
  stops_placement key k0 = true ->
  wf self -> 0 <= q0 < _size self ->
  k <> PyNone -> k <> key ->
  stored self k v -> stored (placed self q0 key value) k v.
Proof.
  intros Hk0 Hs Hwf Hq0 Hnone Hne (q & Hk & Hv).
  exists q. cbn [_keys _values placed].
  assert (Hqq0 : Z.to_nat q0 <> q).
  { intros <-. apply getitem_lookup in Hk0;
      [|now rewrite wf_keys_length].
    apply stops_placement_true in Hs as [->| ->]; congruence. }
  now rewrite !list_lookup_insert_ne.
Qed.

(** In a chained table [get] returns the value stored with the key. *)
Lemma get_stored self k v :
  chained self -> k <> PyNone -> stored self k v ->
  get k self = Some (Ok v, self).
Proof.
  intros [Hwf Hch] Hne (q & Hk & Hv).
  destruct (Hch q k Hk Hne) as (Hkey & hv & i & Hhash & Hstop & Hi).
  unfold get, bind.
  rewrite (_get_pos_stops self Hwf k hv Hkey Hhash i Hstop), Hi.
  unfold lookup_result. rewrite (lookup_getitem self q k Hwf Hk).
  apply py_eq_false in Hne. rewrite Hne.
  unfold load_value. f_equal. f_equal.
  apply getitem_lookup.
  - apply lookup_lt_Some in Hv. lia.
  - now rewrite Nat2Z.id.
Qed.

(** The keys that [_reposition] inserted are stored with the value of
    their last pair; the keys it did not meet keep their value. *)
Lemma _reposition_values kvs : forall self self',
  wf self ->
  _reposition kvs self = Some (Ok tt, self') ->
  forall k, k <> PyNone ->
    match last_value kvs k with
    | Some v => stored self' k v
    | None => forall v, stored self k v -> stored self' k v
    end.
Proof.
  induction kvs as [|[key value] kvs IH]; intros self self' Hwf Hrun k Hne.
  - injection Hrun as <-. cbn. auto.
  - cbn [_reposition] in Hrun. unfold bind at 1 in Hrun.
    cbn [last_value].
    destruct (py_eq key PyNone) eqn:Hnone; cbn [negb] in Hrun.
    + apply py_eq_true in Hnone as ->.
      specialize (IH _ _ Hwf Hrun k Hne).
      destruct (last_value kvs k); [assumption|].
      assert (py_eq PyNone k = false) as -> by now apply py_eq_false.
      assumption.
    + unfold bind at 1, call_hash in Hrun.
      destruct (hash self key) as [hv|e]; [|discriminate].
      destruct (_set_item _ _ _ _ self) as [[r1 self1]|] eqn:Hset;
        [|discriminate].
      pose proof (_calculate_position_range self Hwf hv) as Hp.
      apply _set_item_result in Hset as (i & Hstop & -> & ->);
        [|assumption..].
      set (q0 := probe_seq self (_calculate_position self hv) i) in *.
      pose proof (probe_seq_range self Hwf (_calculate_position self hv) i)
        as Hq0. fold q0 in Hq0.
      specialize (IH _ _ (wf_placed self q0 key value Hwf) Hrun k Hne).
      destruct (last_value kvs k); [assumption|].
      destruct (py_eq key k) eqn:Heq.
      * apply py_eq_true in Heq as <-. apply IH.
        now apply stored_placed.
      * apply py_eq_false in Heq. intros v Hv. apply IH.
        destruct Hstop as [_ (k0 & Hk0 & Hs)].
        apply (stored_placed_other self q0 key value k0); auto.
Qed.

Lemma covers_placed self occ q0 key value :
  covers self occ ->
  covers (placed self q0 key value) (Z.to_nat q0 :: occ).
Proof.
  intros Hocc q k Hq Hne. cbn [_keys placed] in Hq.
  destruct (decide (q = Z.to_nat q0)) as [->|Hqq0]; [left|right].
  rewrite list_lookup_insert_ne in Hq by congruence. eauto.
Qed.

(** [_reposition] returns when the table has room for twice the keys
    that are stored and to come. *)
Lemma _reposition_terminates kvs : forall self occ,
  chained self ->
  hash self = custom_hash ->
  _size self mod 2 = 0 ->
  _size self mod 3 <> 0 ->
  covers self occ ->
  2 * Z.of_nat (length occ + length kvs) <= _size self ->
  Forall (fun kv => kv.1 = PyNone \/ is_acceptable_key kv.1 = true) kvs ->
  exists self' occ',
    _reposition kvs self = Some (Ok tt, self') /\
    covers self' occ' /\
    (length occ' <= length occ + length kvs)%nat /\
    _used_slots self' = _used_slots self + Z.of_nat (count_live kvs) /\
    _dummy_slots self' = _dummy_slots self.
Proof.
  induction kvs as [|[key value] kvs IH];
    intros self occ Hch Hhash Heven H3 Hocc Hroom Hkvs.
  - exists self, occ. cbn. repeat split; [assumption|lia|lia].
  - apply Forall_cons in Hkvs as [Hkv Hkvs]. cbn [fst] in Hkv.
    cbn [length] in Hroom.
    cbn [_reposition]. unfold bind at 1. unfold count_live.
    rewrite filter_cons. cbn [fst].
    destruct (py_eq key PyNone) eqn:Hnone; cbn [negb].
    + apply py_eq_true in Hnone as ->.
      destruct (IH self occ) as (self' & occ' & Hrun & Hocc' & Hlen & Hu & Hd);
        try assumption; [lia|].
      exists self', occ'. unfold ret.
      destruct (decide (PyNone <> PyNone)) as [?|_]; [congruence|].
      repeat split; try assumption. cbn [length]. lia.
    + apply py_eq_false in Hnone. destruct Hkv as [?|Hkey]; [contradiction|].
      destruct (custom_hash_acceptable key Hkey) as (hv & Hhv).
      rewrite <- Hhash in Hhv.
      unfold bind at 1, call_hash. rewrite Hhv.
      pose proof Hch as [Hwf _].
      pose proof (_calculate_position_range self Hwf hv) as Hp.
      destruct (placement_terminates self (_calculate_position self hv) key occ)
        as (i & Hstop); try assumption; [lia|].
      rewrite (_set_item_stops self Hwf key value i); try assumption;
        [|now apply placement_stops_lt_fuel with (_calculate_position self hv) key].
      set (q0 := probe_seq self (_calculate_position self hv) i).
      destruct (IH (placed self q0 key value) (Z.to_nat q0 :: occ))
        as (self' & occ' & Hrun & Hocc' & Hlen & Hu & Hd);
        try assumption.
      * now apply chained_placed.
      * now apply covers_placed.
      * cbn [length _size placed]. lia.
      * exists self', occ'.
        destruct (decide (key <> PyNone)) as [_|?]; [|contradiction].
        split; [assumption|]. split; [assumption|].
        cbn [length _used_slots _dummy_slots placed] in *.
        fold (count_live kvs) in *. repeat split; lia.
Qed.

Lemma keys_acceptable_zip self :
  keys_acceptable self = true ->
  Forall (fun kv => kv.1 = PyNone \/ is_acceptable_key kv.1 = true)
         (zip (_keys self) (_values self)).
Proof.
  unfold keys_acceptable. generalize (_values self).
  induction (_keys self) as [|k ks IH]; intros [|v vs] Hall;
    try apply Forall_nil_2.
  cbn [forallb] in Hall. apply andb_true_iff in Hall as [Hk Hall].
  cbn [zip zip_with]. apply Forall_cons. split; [|now apply IH].
  cbn [fst]. apply orb_true_iff in Hk as [Hk|Hk]; [left|now right].
  now apply py_eq_true.
Qed.

Lemma grown_size self :
  _size self mod 3 <> 0 ->
  (_size self * 4) mod 2 = 0 /\ (_size self * 4) mod 3 <> 0.
Proof.
  intros H3. split.
  - replace (_size self * 4) with (_size self * 2 * 2) by lia.
    apply Z.mod_mul. lia.
  - replace (_size self * 4) with (_size self + _size self * 3) by lia.
    rewrite Z.mod_add by lia. assumption.
Qed.

(** [_resize] returns on every table of acceptable keys whose size 3
    does not divide, and says what it leaves. *)
Lemma _resize_terminates self :
  wf self ->
  hash self = custom_hash ->
  keys_acceptable self = true ->
  _size self mod 3 <> 0 ->
  exists self1 occ,
    _resize self = Some (Ok tt, self1) /\
    chained self1 /\
    _size self1 = _size self * 4 /\
    hash self1 = hash self /\
    _dummy_slots self1 = 0 /\
    _used_slots self1 = Z.of_nat (live_slots self) /\
    covers self1 occ /\
    Z.of_nat (length occ) <= _size self /\
    forall k v, k <> PyNone ->
      last_value (zip (_keys self) (_values self)) k = Some v ->
      stored self1 k v.
Proof.
  intros Hwf Hhash Hkeys H3.
  pose proof Hwf as (Hpos & Hlk & Hlv).
  destruct (grown_size self H3) as [Heven' H3'].
  set (fresh := {| _size := _size self * 4;
                   _used_slots := 0;
                   _dummy_slots := 0;
                   _keys := replicate (Z.to_nat (_size self * 4)) PyNone;
                   _values := replicate (Z.to_nat (_size self * 4)) PyNone;
                   hash := hash self |}).
  assert (Hch : chained fresh) by (apply chained_empty; lia).
  assert (Hocc : covers fresh []).
  { intros q k Hq Hne. cbn in Hq.
    apply lookup_replicate in Hq as [-> _]. congruence. }
  pose proof (keys_acceptable_zip self Hkeys) as Hkvs.
  destruct (_reposition_terminates (zip (_keys self) (_values self)) fresh [])
    as (self1 & occ & Hrun & Hocc1 & Hlen & Hu & Hd); try assumption.
  { cbn [length]. rewrite length_zip_with, Hlk, Hlv.
    cbn [_size fresh]. lia. }
  pose proof (_reposition_frame _ _ _ _ (proj1 Hch) Hrun) as (_ & Hs1 & Hh1).
  exists self1, occ. split; [exact Hrun|].
  split; [eapply chained__reposition; eassumption|].
  split; [exact Hs1|]. split; [exact Hh1|]. split; [exact Hd|].
  split.
  { rewrite Hu. cbn [_used_slots fresh]. unfold live_slots.
    rewrite count_live_zip by congruence. lia. }
  split; [exact Hocc1|].
  split.
  { cbn [length] in Hlen. rewrite length_zip_with, Hlk, Hlv in Hlen. lia. }
  intros k v Hne Hlast.
  pose proof (_reposition_values _ _ _ (proj1 Hch) Hrun k Hne) as Hval.
  now rewrite Hlast in Hval.
Qed.

(** ** Growth under a recursion limit *)

(** A placement collides at most once with each slot that holds a key. *)
Lemma placement_stops_le_occupied self p key occ i :
  wf self ->
  _size self mod 2 = 0 ->
  _size self mod 3 <> 0 ->
  covers self occ ->
  2 * Z.of_nat (length occ) < _size self ->
  placement_stops self p key i ->
  (i <= length occ)%nat.
Proof.
  intros Hwf Heven H3 Hocc Hlen [Hb _].
  pose proof Hwf as (Hpos & _ & _).
  set (h := Z.to_nat (_size self / 2)).
  assert (Hh : 2 * Z.of_nat h = _size self).
  { unfold h. pose proof (Z.div_mod (_size self) 2 ltac:(lia)). lia. }
  set (m := Nat.min i h).
  set (slots := (fun j => Z.to_nat (probe_seq self p j)) <$> seq 0 m).
  assert (Hnodup : NoDup slots).
  { apply NoDup_fmap_2_strong; [|apply NoDup_seq].
    intros j j' Hj Hj' Heq.
    apply elem_of_seq in Hj, Hj'.
    pose proof (probe_seq_range self Hwf p j).
    pose proof (probe_seq_range self Hwf p j').
    apply (probe_seq_inj self p); try assumption; lia. }
  assert (Hsub : forall q, q ∈ slots -> q ∈ occ).
  { intros q Hq. apply list_elem_of_fmap in Hq as (j & -> & Hj).
    apply elem_of_seq in Hj.
    destruct (Hb j ltac:(lia)) as (k & Hk & Hs).
    apply stops_placement_false in Hs as [Hnone _].
    apply (Hocc _ k); [|assumption].
    apply getitem_lookup; [|assumption].
    rewrite wf_keys_length by assumption. now apply probe_seq_range. }
  apply NoDup_submseteq in Hsub; [|assumption].
  apply submseteq_length in Hsub.
  unfold slots in Hsub. rewrite length_fmap, length_seq in Hsub. lia.
Qed.

(** What the methods return under a limit, they return without one. *)
Lemma _reposition_within_sound limit kvs : forall self r,
  wf self ->
  _reposition_within limit kvs self = Some r ->
  _reposition kvs self = Some r.
Proof.
  induction kvs as [|[key value] kvs IH]; intros self r Hwf Hrun;
    [exact Hrun|].
  cbn [_reposition_within] in Hrun. cbn [_reposition].
  unfold bind at 1 in Hrun. unfold bind at 1.
  destruct (py_eq key PyNone); cbn [negb] in Hrun |- *.
  - unfold ret in Hrun |- *. now apply IH.
  - unfold bind at 1, call_hash in Hrun. unfold bind at 1, call_hash.
    destruct (hash self key) as [hv|e]; [|exact Hrun].
    pose proof (_calculate_position_range self Hwf hv) as Hp.
    destruct (_set_item limit _ _ _ self) as [[r1 self1]|] eqn:Hset;
      [|discriminate].
    rewrite (_set_item_fuel_enough self Hwf key value limit _ _ Hp Hset).
    apply _set_item_result in Hset as (i & _ & -> & ->); [|assumption..].
    apply IH; [now apply wf_placed|exact Hrun].
Qed.

Lemma _resize_within_sound limit self r :
  wf self ->
  _resize_within limit self = Some r ->
  _resize self = Some r.
Proof.
  intros (Hs & _ & _) Hrun. unfold _resize_within in Hrun. unfold _resize.
  apply _reposition_within_sound in Hrun; [exact Hrun|].
  unfold wf. cbn. rewrite !length_replicate. repeat split; lia.
Qed.

Lemma put_within_sound limit key value self r :
  wf self ->
  put_within limit key value self = Some r ->
  put key value self = Some r.
Proof.
  intros Hwf Hrun. unfold put_within in Hrun. unfold put.
  unfold bind at 1 in Hrun. unfold bind at 1.
  destruct (raise_if_not_acceptable_key key self) as [[[[]|e] self0]|] eqn:Hacc;
    [|exact Hrun..].
  assert (self0 = self) as ->.
  { unfold raise_if_not_acceptable_key in Hacc.
    destruct (negb (is_acceptable_key key)); now injection Hacc. }
  unfold bind at 1 in Hrun. unfold bind at 1.
  assert (Hgrow : exists r1 self1,
            (if should_expand self then _resize_within limit self
             else ret tt self) = Some (r1, self1) /\
            (if should_expand self then _resize self else ret tt self)
            = Some (r1, self1) /\
            (r1 = Ok tt -> wf self1)).
  { destruct (should_expand self).
    - destruct (_resize_within limit self) as [[r1 self1]|] eqn:Hres;
        [|discriminate].
      exists r1, self1. split; [reflexivity|].
      pose proof (_resize_within_sound _ _ _ Hwf Hres) as Hres'.
      split; [exact Hres'|]. intros _. now apply _resize_frame in Hres'.
    - exists (Ok tt), self. auto. }
  destruct Hgrow as (r1 & self1 & Hw & Hu & Hwf1). rewrite Hw in Hrun.
  rewrite Hu. destruct r1 as [[]|e]; [|exact Hrun].
  specialize (Hwf1 eq_refl).
  unfold bind at 1, call_hash in Hrun. unfold bind at 1, call_hash.
  destruct (hash self1 key) as [hv|e]; [|exact Hrun].
  apply (_set_item_fuel_enough self1 Hwf1 key value limit); [|exact Hrun].
  now apply _calculate_position_range.
Qed.

Lemma _get_pos_within_sound limit key self r :
  wf self ->
  _get_pos_within limit key self = Some r ->
  _get_pos key self = Some r.
Proof.
  intros Hwf Hrun. unfold _get_pos_within in Hrun. unfold _get_pos.
  unfold bind at 1 in Hrun. unfold bind at 1.
  destruct (raise_if_not_acceptable_key key self) as [[[[]|e] self0]|] eqn:Hacc;
    [|exact Hrun..].
  assert (self0 = self) as ->.
  { unfold raise_if_not_acceptable_key in Hacc.
    destruct (negb (is_acceptable_key key)); now injection Hacc. }
  unfold bind at 1, call_hash in Hrun. unfold bind at 1, call_hash.
  destruct (hash self key) as [hv|e]; [|exact Hrun].
  unfold bind at 1, load_key in Hrun. unfold bind at 1, load_key.
  destruct (getitem (_keys self) (_calculate_position self hv)) as [k|e];
    [|exact Hrun].
  destruct (py_eq k PyNone); [exact Hrun|].
  destruct (negb (py_eq k key)); [|exact Hrun].
  now apply (_get_pos_fuel_enough self Hwf key limit).
Qed.

Lemma get_within_sound limit key self r :
  wf self ->
  get_within limit key self = Some r ->
  get key self = Some r.
Proof.
  intros Hwf Hrun. unfold get_within in Hrun. unfold get.
  unfold bind in Hrun |- *.
  destruct (_get_pos_within limit key self) as [rq|] eqn:Hpos;
    [|discriminate].
  now rewrite (_get_pos_within_sound _ _ _ _ Hwf Hpos).
Qed.

Lemma delete_within_sound limit key self r :
  wf self ->
  delete_within limit key self = Some r ->
  delete key self = Some r.
Proof.
  intros Hwf Hrun. unfold delete_within in Hrun. unfold delete.
  unfold bind in Hrun |- *.
  destruct (_get_pos_within limit key self) as [rq|] eqn:Hpos;
    [|discriminate].
  now rewrite (_get_pos_within_sound _ _ _ _ Hwf Hpos).
Qed.

(** [_reposition] returns under a limit that is at least the number of
    keys stored and to come: no placement collides more often than
    there are keys in the table. *)
Lemma _reposition_within_terminates limit kvs : forall self occ,
  chained self ->
  hash self = custom_hash ->
  _size self mod 2 = 0 ->
  _size self mod 3 <> 0 ->
  covers self occ ->
  2 * Z.of_nat (length occ + length kvs) <= _size self ->
  Forall (fun kv => kv.1 = PyNone \/ is_acceptable_key kv.1 = true) kvs ->
  (length occ + count_live kvs <= limit)%nat ->
  exists self' occ',
    _reposition_within limit kvs self = Some (Ok tt, self') /\
    covers self' occ' /\
    (length occ' <= length occ + count_live kvs)%nat.
Proof.
  induction kvs as [|[key value] kvs IH];
    intros self occ Hch Hhash Heven H3 Hocc Hroom Hkvs Hlimit.
  - exists self, occ. cbn. repeat split; [assumption|lia].
  - apply Forall_cons in Hkvs as [Hkv Hkvs]. cbn [fst] in Hkv.
    cbn [length] in Hroom.
    cbn [_reposition_within]. unfold bind at 1.
    unfold count_live in Hlimit |- *. rewrite filter_cons in Hlimit |- *.
    cbn [fst] in Hlimit |- *.
    destruct (py_eq key PyNone) eqn:Hnone; cbn [negb].
    + apply py_eq_true in Hnone as ->.
      destruct (decide (PyNone <> PyNone)) as [?|_]; [congruence|].
      destruct (IH self occ) as (self' & occ' & Hrun & Hocc' & Hlen);
        try assumption; [lia|].
      exists self', occ'. unfold ret. auto.
    + apply py_eq_false in Hnone. destruct Hkv as [?|Hkey]; [contradiction|].
      destruct (decide (key <> PyNone)) as [_|?]; [|contradiction].
      cbn [length] in Hlimit |- *.
      destruct (custom_hash_acceptable key Hkey) as (hv & Hhv).
      rewrite <- Hhash in Hhv.
      unfold bind at 1, call_hash. rewrite Hhv.
      pose proof Hch as [Hwf _].
      pose proof (_calculate_position_range self Hwf hv) as Hp.
      destruct (placement_terminates self (_calculate_position self hv) key occ)
        as (i & Hstop); try assumption; [lia|].
      pose proof (placement_stops_le_occupied self _ key occ i
                    Hwf Heven H3 Hocc ltac:(lia) Hstop) as Hi.
      rewrite (_set_item_stops self Hwf key value i); try assumption; [|lia].
      set (q0 := probe_seq self (_calculate_position self hv) i).
      destruct (IH (placed self q0 key value) (Z.to_nat q0 :: occ))
        as (self' & occ' & Hrun & Hocc' & Hlen);
        try assumption.
      * now apply chained_placed.
      * now apply covers_placed.
      * cbn [length _size placed]. lia.
      * cbn [length]. unfold count_live. lia.
      * exists self', occ'. split; [assumption|]. split; [assumption|].
        cbn [length] in Hlen. unfold count_live in Hlen. lia.
Qed.

(** [_resize] returns under a limit that is at least the number of
    slots that hold a key, and leaves a table in which at most that
    many do. *)
Lemma _resize_within_terminates limit self :
  wf self ->
  hash self = custom_hash ->
  keys_acceptable self = true ->
  _size self mod 3 <> 0 ->
  (live_slots self <= limit)%nat ->
  exists self1 occ,
    _resize_within limit self = Some (Ok tt, self1) /\
    covers self1 occ /\
    (length occ <= live_slots self)%nat /\
    Z.of_nat (live_slots self) <= _size self.
Proof.
  intros Hwf Hhash Hkeys H3 Hlimit.
  pose proof Hwf as (Hpos & Hlk & Hlv).
  destruct (grown_size self H3) as [Heven' H3'].
  set (fresh := {| _size := _size self * 4;
                   _used_slots := 0;
                   _dummy_slots := 0;
                   _keys := replicate (Z.to_nat (_size self * 4)) PyNone;
                   _values := replicate (Z.to_nat (_size self * 4)) PyNone;
                   hash := hash self |}).
  assert (Hch : chained fresh) by (apply chained_empty; lia).
  assert (Hocc : covers fresh []).
  { intros q k Hq Hne. cbn in Hq.
    apply lookup_replicate in Hq as [-> _]. congruence. }
  pose proof (keys_acceptable_zip self Hkeys) as Hkvs.
  assert (Hcount : count_live (zip (_keys self) (_values self))
                   = live_slots self).
  { unfold live_slots. apply count_live_zip. congruence. }
  destruct (_reposition_within_terminates limit
              (zip (_keys self) (_values self)) fresh [])
    as (self1 & occ & Hrun & Hocc1 & Hlen); try assumption.
  { cbn [length]. rewrite length_zip_with, Hlk, Hlv.
    cbn [_size fresh]. lia. }
  { cbn [length]. rewrite Hcount. lia. }
  exists self1, occ. split; [exact Hrun|]. split; [exact Hocc1|].
  cbn [length] in Hlen. rewrite Hcount in Hlen. split; [lia|].
  rewrite <- Hcount. unfold count_live.
  pose proof (length_filter (fun kv : pyobj * pyobj => kv.1 <> PyNone)
                (zip (_keys self) (_values self))) as Hle.
  rewrite length_zip_with, Hlk, Hlv in Hle. lia.
Qed.

(** A search under a limit that is at least the number of its
    collisions. *)
Lemma _get_pos_within_stops limit self key hv i :
  wf self ->
  is_acceptable_key key = true ->
  hash self key = Ok hv ->
  placement_stops self (_calculate_position self hv) key i ->
  (i <= limit)%nat ->
  _get_pos_within limit key self
  = Some (lookup_result self
            (probe_seq self (_calculate_position self hv) i), self).
Proof.
  intros Hwf Hkey Hhash Hstop Hlimit.
  pose proof (_calculate_position_range self Hwf hv) as Hp.
  unfold _get_pos_within, raise_if_not_acceptable_key.
  rewrite Hkey. cbn [negb].
  unfold bind at 1, ret. unfold bind at 1, call_hash. rewrite Hhash.
  destruct i as [|i].
  - destruct Hstop as [_ (k & Hk & Hs)].
    rewrite probe_seq_0 in * by assumption.
    unfold bind, load_key, lookup_result. rewrite Hk.
    destruct (py_eq k PyNone) eqn:Hnone; [reflexivity|].
    apply stops_placement_true in Hs as [->| ->]; [discriminate|].
    now rewrite py_eq_refl.
  - pose proof (placement_stops_unshift _ _ _ _ Hstop) as Hstop'.
    destruct Hstop as [Hb _]. destruct (Hb 0%nat) as (k & Hk & Hs); [lia|].
    rewrite probe_seq_0 in Hk by assumption.
    apply stops_placement_false in Hs as [Hnone Hne].
    apply py_eq_false in Hnone, Hne.
    unfold bind at 1, load_key. rewrite Hk, Hnone, Hne. cbn [negb].
    rewrite (_get_pos_recursively_stops self Hwf key i)
      by (assumption || lia).
    now rewrite probe_seq_S.
Qed.

(** In a chained table [get] finds a stored key under every limit that
    is at least the number of slots that hold a key. *)
Lemma get_stored_within limit self occ k v :
  chained self ->
  _size self mod 2 = 0 ->
  _size self mod 3 <> 0 ->
  covers self occ ->
  2 * Z.of_nat (length occ) < _size self ->
  (length occ <= limit)%nat ->
  k <> PyNone -> stored self k v ->
  get_within limit k self = Some (Ok v, self).
Proof.
  intros [Hwf Hch] Heven H3 Hocc Hlen Hlimit Hne (q & Hk & Hv).
  destruct (Hch q k Hk Hne) as (Hkey & hv & i & Hhash & Hstop & Hi).
  pose proof (placement_stops_le_occupied self _ k occ i
                Hwf Heven H3 Hocc Hlen Hstop) as Hbound.
  unfold get_within, bind.
  rewrite (_get_pos_within_stops limit self k hv i) by (assumption || lia).
  rewrite Hi. unfold lookup_result.
  rewrite (lookup_getitem self q k Hwf Hk).
  apply py_eq_false in Hne. rewrite Hne.
  unfold load_value. f_equal. f_equal.
  apply getitem_lookup.
  - apply lookup_lt_Some in Hv. lia.
  - now rewrite Nat2Z.id.
Qed.

(** C8 as the specification has it does not hold: a key that a [put]
    after a [delete] stored twice is read with one value before the
    growth and with the other after it. *)
Lemma growth_changes_value_of_twice_stored_key :
  exists self self1 self',
    run [Put (PyInt 0) (PyStr "a"); Put (PyInt 8) (PyStr "b");
         Delete (PyInt 0); Put (PyInt 8) (PyStr "c");
         Put (PyInt 1) (PyStr "x"); Put (PyInt 2) (PyStr "y")] new_Hash
    = Some self /\
    should_expand self = true /\
    get (PyInt 8) self = Some (Ok (PyStr "c"), self) /\
    _resize self = Some (Ok tt, self1) /\
    get (PyInt 8) self1 = Some (Ok (PyStr "b"), self1) /\
    put (PyInt 3) (PyStr "z") self = Some (Ok tt, self') /\
    get (PyInt 8) self' = Some (Ok (PyStr "b"), self').
Proof.
  do 3 eexists.
  split; [vm_compute; reflexivity|].
  split; [reflexivity|].
  split; [vm_compute; reflexivity|].
  split; [vm_compute; reflexivity|].
  split; [vm_compute; reflexivity|].
  split; vm_compute; reflexivity.
Qed.

(** C8, amended. When the check of a [put] finds the load at or above
    the threshold, the table grows before the key is placed: the size
    is multiplied by 4, [_dummy_slots] is 0 and [_used_slots] is the
    number of slots that held a key (the counters start from zero and
    each re-insertion counts once; nothing in the pass looks at the
    threshold, so the size is multiplied once).  Every key of the old
    table is read back from the grown table, with the value of the last
    old slot that held it, which is its value when it was in one slot
    only.  The growth, the reads and the [put] return when the
    recursion limit allows more nested calls of a probe than slots of
    the old table hold a key: a probe of the grown table collides at
    most once with each key in it, so the placement of the new key
    collides at most that many times. *)
Theorem growth_on_put limit self key value :
  wf self ->
  hash self = custom_hash ->
  keys_acceptable self = true ->
  _size self mod 3 <> 0 ->
  is_acceptable_key key = true ->
  should_expand self = true ->
  (live_slots self < limit)%nat ->
  exists self1 self',
    _resize_within limit self = Some (Ok tt, self1) /\
    _size self1 = _size self * 4 /\
    _dummy_slots self1 = 0 /\
    _used_slots self1 = Z.of_nat (live_slots self) /\
    chained self1 /\
    (forall (q : nat) k v,
       _keys self !! q = Some k -> k <> PyNone ->
       _values self !! q = Some v ->
       (forall q' : nat, (q < q')%nat -> _keys self !! q' <> Some k) ->
       get_within limit k self1 = Some (Ok v, self1)) /\
    put_within limit key value self = Some (Ok tt, self') /\
    (exists hv i,
       hash self1 key = Ok hv /\
       placement_stops self1 (_calculate_position self1 hv) key i /\
       (i <= live_slots self)%nat /\
       self' = placed self1 (probe_seq self1 (_calculate_position self1 hv) i)
                      key value) /\
    _size self' = _size self * 4.
Proof.
  intros Hwf Hhash Hkeys H3 Hkey Hexpand Hlimit.
  destruct (_resize_terminates self Hwf Hhash Hkeys H3)
    as (self1 & occ0 & Hres & Hch1 & Hs1 & Hh1 & Hd1 & Hu1 & _ & _ & Hval).
  destruct (_resize_within_terminates limit self Hwf Hhash Hkeys H3
              ltac:(lia))
    as (self1' & occ & Hresw & Hocc & Hlen & Hroom).
  pose proof (_resize_within_sound _ _ _ Hwf Hresw) as Hres'.
  rewrite Hres in Hres'. injection Hres' as <-.
  pose proof Hch1 as [Hwf1 _].
  pose proof Hwf as (Hpos & _ & _).
  destruct (grown_size self H3) as [Heven' H3'].
  rewrite <- Hs1 in Heven', H3'.
  assert (Hhalf : 2 * Z.of_nat (length occ) < _size self1) by lia.
  destruct (custom_hash_acceptable key Hkey) as (hv & Hhv).
  rewrite <- Hhash, <- Hh1 in Hhv.
  destruct (placement_terminates self1 (_calculate_position self1 hv) key occ)
    as (i & Hstop); try assumption.
  pose proof (placement_stops_le_occupied self1 _ key occ i
                Hwf1 Heven' H3' Hocc Hhalf Hstop) as Hi.
  exists self1,
    (placed self1 (probe_seq self1 (_calculate_position self1 hv) i) key value).
  split; [exact Hresw|]. split; [exact Hs1|]. split; [exact Hd1|].
  split; [exact Hu1|]. split; [exact Hch1|].
  split.
  { intros q k v Hk Hne Hv Hlast.
    apply get_stored_within with occ; try assumption; [lia|].
    apply Hval; [assumption|]. now apply last_value_lookup with q. }
  split.
  { unfold put_within, raise_if_not_acceptable_key. rewrite Hkey. cbn [negb].
    unfold bind at 1, ret. unfold bind at 1. rewrite Hexpand, Hresw.
    unfold bind at 1, call_hash. rewrite Hhv.
    apply _set_item_stops; try assumption; [|lia].
    now apply _calculate_position_range. }
  split; [|exact Hs1].
  exists hv, i. repeat (split; [assumption || lia|]). reflexivity.
Qed.

Lemma growth_on_put_witness :
  six_puts new_Hash = Some (Ok tt, full_table) /\
  wf full_table /\
  hash full_table = custom_hash /\
  keys_acceptable full_table = true /\
  _size full_table mod 3 <> 0 /\
  is_acceptable_key (PyStr "g") = true /\
  should_expand full_table = true /\
  (live_slots full_table < 7)%nat /\
  exists self1 self',
    _resize_within 7 full_table = Some (Ok tt, self1) /\
    _size self1 = 32 /\
    _used_slots self1 = 6 /\
    get_within 7 (PyStr "a") self1 = Some (Ok (PyInt 1), self1) /\
    put_within 7 (PyStr "g") (PyInt 7) full_table = Some (Ok tt, self') /\
    _size self' = 32.
Proof.
  assert (Hwf : wf full_table) by (unfold wf; cbn; repeat split; reflexivity).
  assert (H3 : _size full_table mod 3 <> 0) by (cbn; discriminate).
  assert (Hlimit : (live_slots full_table < 7)%nat) by (vm_compute; lia).
  split; [vm_compute; reflexivity|]. split; [exact Hwf|].
  split; [reflexivity|]. split; [reflexivity|]. split; [exact H3|].
  split; [reflexivity|]. split; [reflexivity|]. split; [exact Hlimit|].
  destruct (growth_on_put 7 full_table (PyStr "g") (PyInt 7)
              Hwf eq_refl eq_refl H3 eq_refl eq_refl Hlimit)
    as (self1 & self' & Hres & Hs1 & _ & Hu1 & _ & Hget & Hput & _ & Hs').
  exists self1, self'.
  split; [exact Hres|]. split; [exact Hs1|]. split; [exact Hu1|].
  split; [|split; [exact Hput|exact Hs']].
  apply (Hget 6%nat); [reflexivity|discriminate|reflexivity|].
  intros [|[|[|[|[|[|[|[|q']]]]]]]] Hq'; try lia; cbn; discriminate.
Defined.

(** ** The threshold *)

(** X18. For every size below [2^53 / 9] and counters that a double
    holds, the test of [should_expand] against the double [0.70] is the
    test of the load against 7/10: the table grows exactly when
    [10 * (_used_slots + _dummy_slots) >= 7 * _size]; neither the
    rounding of [0.70] nor that of the quotient makes a difference. *)
Lemma should_expand_ratio self :
  0 < 9 * _size self < 2 ^ 53 ->
  0 <= _used_slots self + _dummy_slots self < 2 ^ 53 ->
  should_expand self
  = (7 * _size self <=? 10 * (_used_slots self + _dummy_slots self)).
Proof.
  intros Hs _. unfold should_expand, _max_threshold_num, _max_threshold_den.
  change (2 ^ 53) with 9007199254740992 in *.
  destruct (Z.leb_spec (7 * _size self)
              (10 * (_used_slots self + _dummy_slots self)));
    [apply Z.leb_le|apply Z.leb_gt]; lia.
Qed.

(** X19. From [2^53 / 9] on the rounding of the quotient shows: a table
    of 2000000000000003 slots with 1400000000000002 of them counted is
    below 7/10 of its size, and [should_expand] is true, since the
    quotient rounds to the double [0.70]. *)
Lemma should_expand_rounds_to_threshold :
  let self := mkHash 2000000000000003 1400000000000002 0 [] [] custom_hash in
  should_expand self = true /\
  (7 * _size self <=? 10 * (_used_slots self + _dummy_slots self)) = false /\
  2 ^ 53 < 9 * _size self.
Proof. repeat split; vm_compute; reflexivity. Qed.

(** A [put] of a key that [get] finds leaves the keys as they are and
    still adds one to [_used_slots]. *)
Lemma put_stored_key_counts_again self key v value :
  wf self ->
  should_expand self = false ->
  get key self = Some (Ok v, self) ->
  exists self',
    put key value self = Some (Ok tt, self') /\
    _keys self' = _keys self /\
    _used_slots self' = _used_slots self + 1.
Proof.
  intros Hwf Hexpand Hget. unfold get in Hget. unfold bind at 1 in Hget.
  destruct (_get_pos key self) as [[[q|e] self1]|] eqn:Hpos; try discriminate.
  destruct (_get_pos_result _ _ _ _ Hwf Hpos)
    as (-> & [[_ ?]|[(_ & ? & _ & ?)|(Hkey & hv & i & Hhash & Hstop & Hres)]]);
    try discriminate.
  symmetry in Hres. apply lookup_result_Ok in Hres as (-> & k & Hk & Hnone).
  assert (k = key) as ->.
  { destruct Hstop as [_ (k' & Hk' & Hs)].
    apply stops_placement_true in Hs as [->| ->]; congruence. }
  pose proof (_calculate_position_range self Hwf hv) as Hp.
  pose proof (probe_seq_range self Hwf (_calculate_position self hv) i) as Hq.
  eexists. split.
  - unfold put, raise_if_not_acceptable_key. rewrite Hkey. cbn [negb].
    unfold bind at 1, ret. unfold bind at 1. rewrite Hexpand.
    unfold bind at 1, call_hash. rewrite Hhash.
    apply _set_item_stops; try eassumption.
    now apply placement_stops_lt_fuel with (_calculate_position self hv) key.
  - cbn [_keys _used_slots placed]. split; [|reflexivity].
    apply list_insert_id. apply getitem_lookup; [|assumption].
    now rewrite wf_keys_length.
Qed.

(** ** The tables that calls can produce *)

Lemma keys_acceptable_Forall self :
  keys_acceptable self = true <->
  Forall (fun k => k = PyNone \/ is_acceptable_key k = true) (_keys self).
Proof.
  unfold keys_acceptable. induction (_keys self) as [|k ks IH].
  - split; [constructor|reflexivity].
  - cbn [forallb]. rewrite andb_true_iff, Forall_cons, IH.
    rewrite orb_true_iff, py_eq_true. tauto.
Qed.

Lemma valid_new_Hash : valid new_Hash.
Proof.
  split; [exact wf_new_Hash|]. repeat split. cbn. discriminate.
Qed.

Lemma valid_placed self q key value :
  is_acceptable_key key = true -> valid self ->
  valid (placed self q key value).
Proof.
  intros Hkey (Hwf & Hhash & Hkeys & H3).
  split; [now apply wf_placed|]. split; [assumption|]. split; [|assumption].
  apply keys_acceptable_Forall. cbn [_keys placed].
  apply Forall_insert; [now apply keys_acceptable_Forall|now right].
Qed.

Lemma valid_deleted self q : valid self -> valid (deleted self q).
Proof.
  intros (Hwf & Hhash & Hkeys & H3).
  split; [now apply wf_deleted|]. split; [assumption|]. split; [|assumption].
  apply keys_acceptable_Forall. cbn [_keys deleted].
  apply Forall_insert; [now apply keys_acceptable_Forall|now left].
Qed.

Lemma chained_keys_acceptable_true self :
  chained self -> keys_acceptable self = true.
Proof.
  intros [_ Hch]. apply keys_acceptable_Forall, Forall_forall.
  intros k Hin. apply list_elem_of_lookup in Hin as [q Hq].
  destruct (decide (k = PyNone)) as [|Hne]; [now left|right].
  now destruct (Hch q k Hq Hne).
Qed.

Lemma valid_put self key value r self' :
  valid self -> put key value self = Some (r, self') -> valid self'.
Proof.
  intros Hvalid Hrun. unfold put, raise_if_not_acceptable_key in Hrun.
  destruct (is_acceptable_key key) eqn:Hkey; cbn [negb] in Hrun;
    [|now injection Hrun as <- <-].
  unfold bind at 1, ret in Hrun. unfold bind at 1 in Hrun.
  assert (Hgrow : exists self1,
            valid self1 /\
            (hashvalue <- call_hash key ;;
             fun self =>
               let position := _calculate_position self hashvalue in
               _set_item (probe_fuel self) position key value self) self1
            = Some (r, self')).
  { destruct (should_expand self); [|now exists self].
    destruct Hvalid as (Hwf & Hhash & Hkeys & H3).
    destruct (_resize_terminates self Hwf Hhash Hkeys H3)
      as (self1 & occ & Hres & Hch1 & Hs1 & Hh1 & _).
    rewrite Hres in Hrun. exists self1. split; [|assumption].
    split; [apply Hch1|]. split; [congruence|].
    split; [now apply chained_keys_acceptable_true|].
    rewrite Hs1. now apply grown_size. }
  clear Hrun. destruct Hgrow as (self1 & Hvalid1 & Hrun).
  pose proof Hvalid1 as (Hwf1 & Hhash1 & _).
  destruct (custom_hash_acceptable key Hkey) as (hv & Hhv).
  rewrite <- Hhash1 in Hhv.
  unfold bind at 1, call_hash in Hrun. rewrite Hhv in Hrun.
  apply _set_item_result in Hrun as (i & _ & _ & ->);
    [|assumption|now apply _calculate_position_range].
  now apply valid_placed.
Qed.

Lemma valid_delete self key r self' :
  valid self -> delete key self = Some (r, self') -> valid self'.
Proof.
  intros Hvalid Hrun. pose proof Hvalid as (Hwf & _).
  unfold delete in Hrun. unfold bind at 1 in Hrun.
  destruct (_get_pos key self) as [[[q|e] self1]|] eqn:Hpos;
    [| |discriminate].
  - destruct (_get_pos_result _ _ _ _ Hwf Hpos)
      as (-> & [[_ ?]|[(_ & ? & _ & ?)|(_ & hv & i & _ & _ & Hres)]]);
      try discriminate.
    symmetry in Hres. apply lookup_result_Ok in Hres as (-> & _).
    rewrite _delete_item_ok in Hrun;
      [|assumption|now apply probe_seq_range].
    injection Hrun as <- <-. now apply valid_deleted.
  - apply _get_pos_result in Hpos as [-> _]; [|assumption].
    now injection Hrun as <- <-.
Qed.

(** Every table that a sequence of calls on a new table leaves is
    [valid]. *)
Lemma valid_run ops : forall self self',
  valid self -> run ops self = Some self' -> valid self'.
Proof.
  induction ops as [|o ops IH]; intros self self' Hvalid Hrun.
  - now injection Hrun as <-.
  - cbn [run] in Hrun.
    destruct (step o self) as [self1|] eqn:Hstep; [|discriminate].
    apply (IH self1); [|assumption].
    destruct o as [key value|key|key]; cbn [step] in Hstep;
      unfold exec in Hstep.
    + destruct (put key value self) as [[r s]|] eqn:Hput; [|discriminate].
      injection Hstep as <-. now apply valid_put in Hput.
    + destruct (get key self) as [[r s]|] eqn:Hget; [|discriminate].
      injection Hstep as <-. apply get_frame in Hget as ->; [assumption|].
      apply Hvalid.
    + destruct (delete key self) as [[r s]|] eqn:Hdel; [|discriminate].
      injection Hstep as <-. now apply valid_delete in Hdel.
Qed.


(** * Further properties of the methods *)

(** ** What the calls answer *)

(** What a [put] on a valid table has done when it returns. *)
Lemma put_outcome self key value r self' :
  valid self ->
  put key value self = Some (r, self') ->
  (is_acceptable_key key = false /\ r = Raise TypeError /\ self' = self) \/
  (is_acceptable_key key = true /\ r = Ok tt /\
   exists self1 hv i,
     (if should_expand self then _resize self = Some (Ok tt, self1)
      else self1 = self) /\
     valid self1 /\
     hash self1 key = Ok hv /\
     placement_stops self1 (_calculate_position self1 hv) key i /\
     self' = placed self1 (probe_seq self1 (_calculate_position self1 hv) i)
                    key value).
Proof.
  intros Hvalid Hrun. unfold put, raise_if_not_acceptable_key in Hrun.
  destruct (is_acceptable_key key) eqn:Hkey; cbn [negb] in Hrun;
    [right|left; now injection Hrun as <- <-].
  split; [reflexivity|].
  unfold bind at 1, ret in Hrun. unfold bind at 1 in Hrun.
  assert (Hgrow : exists self1,
            (if should_expand self then _resize self = Some (Ok tt, self1)
             else self1 = self) /\
            valid self1 /\
            (hashvalue <- call_hash key ;;
             fun self =>
               let position := _calculate_position self hashvalue in
               _set_item (probe_fuel self) position key value self) self1
            = Some (r, self')).
  { destruct (should_expand self); [|now exists self].
    destruct Hvalid as (Hwf & Hhash & Hkeys & H3).
    destruct (_resize_terminates self Hwf Hhash Hkeys H3)
      as (self1 & occ & Hres & Hch1 & Hs1 & Hh1 & _).
    rewrite Hres in Hrun. exists self1. split; [exact Hres|].
    split; [|assumption].
    split; [apply Hch1|]. split; [congruence|].
    split; [now apply chained_keys_acceptable_true|].
    rewrite Hs1. now apply grown_size. }
  clear Hrun. destruct Hgrow as (self1 & Hgrow & Hvalid1 & Hrun).
  pose proof Hvalid1 as (Hwf1 & Hhash1 & _).
  destruct (custom_hash_acceptable key Hkey) as (hv & Hhv).
  rewrite <- Hhash1 in Hhv.
  unfold bind at 1, call_hash in Hrun. rewrite Hhv in Hrun.
  apply _set_item_result in Hrun as (i & Hstop & -> & ->);
    [|assumption|now apply _calculate_position_range].
  split; [reflexivity|]. exists self1, hv, i.
  repeat (split; [first [assumption | reflexivity]|]). reflexivity.
Qed.


(** X1. On a valid table [put] raises no exception but the [TypeError]
    for a key of another kind, which it raises before it touches the
    table: there is no [IndexError] and no error from the hash. *)
Theorem put_raises_only_TypeError self key value r self' :
  valid self ->
  put key value self = Some (r, self') ->
  (r = Ok tt /\ is_acceptable_key key = true) \/
  (r = Raise TypeError /\ is_acceptable_key key = false /\ self' = self).
Proof.
  intros Hvalid Hrun.
  destruct (put_outcome _ _ _ _ _ Hvalid Hrun)
    as [(Hkey & -> & ->)|(Hkey & -> & _)]; auto.
Qed.

Lemma put_raises_only_TypeError_witness :
  valid new_Hash /\
  put (PyInt (-3)) (PyStr "v") new_Hash
  = Some (Ok tt, placed new_Hash 5 (PyInt (-3)) (PyStr "v")) /\
  ((Ok tt = Ok tt /\ is_acceptable_key (PyInt (-3)) = true) \/
   (@Ok unit tt = Raise TypeError /\ is_acceptable_key (PyInt (-3)) = false /\
    placed new_Hash 5 (PyInt (-3)) (PyStr "v") = new_Hash)).
Proof.
  assert (Hvalid : valid new_Hash).
  { split; [unfold wf; cbn; repeat split; reflexivity|].
    repeat split. cbn. discriminate. }
  split; [exact Hvalid|]. split; [reflexivity|].
  apply (put_raises_only_TypeError new_Hash (PyInt (-3)) (PyStr "v")).
  - exact Hvalid.
  - reflexivity.
Defined.





(** X4. A key whose home slot is empty is not found: [get] and [delete]
    raise [KeyError] at once and leave the table as it was, whatever the
    other slots hold. *)
Theorem empty_home_slot_is_KeyError self key hv :
  wf self ->
  is_acceptable_key key = true ->
  hash self key = Ok hv ->
  getitem (_keys self) (_calculate_position self hv) = Ok PyNone ->
  get key self = Some (Raise KeyError, self) /\
  delete key self = Some (Raise KeyError, self).
Proof.
  intros Hwf Hkey Hhash Hnone.
  pose proof (_calculate_position_range self Hwf hv) as Hp.
  assert (Hstop : placement_stops self (_calculate_position self hv) key 0).
  { split; [intros j Hj; lia|]. exists PyNone.
    rewrite probe_seq_0 by assumption. split; [assumption|].
    apply stops_placement_true. now left. }
  pose proof (_get_pos_stops self Hwf key hv Hkey Hhash 0 Hstop) as Hpos.
  rewrite probe_seq_0 in Hpos by assumption.
  unfold lookup_result in Hpos. rewrite Hnone, py_eq_refl in Hpos.
  unfold get, delete, bind. now rewrite Hpos.
Qed.

Lemma empty_home_slot_is_KeyError_witness :
  wf collision_table /\
  is_acceptable_key (PyStr "abc") = true /\
  hash collision_table (PyStr "abc") = Ok 193485963 /\
  getitem (_keys collision_table)
          (_calculate_position collision_table 193485963) = Ok PyNone /\
  get (PyStr "abc") collision_table = Some (Raise KeyError, collision_table) /\
  delete (PyStr "abc") collision_table
  = Some (Raise KeyError, collision_table).
Proof.
  assert (Hwf : wf collision_table)
    by (unfold wf; cbn; repeat split; reflexivity).
  split; [exact Hwf|]. split; [reflexivity|]. split; [reflexivity|].
  split; [reflexivity|].
  apply (empty_home_slot_is_KeyError collision_table (PyStr "abc") 193485963).
  - exact Hwf.
  - reflexivity.
  - reflexivity.
  - reflexivity.
Defined.

(** ** The slots a probe can reach *)

Lemma iter__probing self p (n : nat) :
  0 < _size self -> 0 <= p < _size self ->
  Nat.iter n (_probing self) p = probe_seq self p n.
Proof.
  intros Hs Hp. induction n as [|n IH].
  - cbn. unfold probe_seq. rewrite Z.add_0_r. symmetry. now apply Z.mod_small.
  - change (Nat.iter (S n) (_probing self) p)
      with (_probing self (Nat.iter n (_probing self) p)).
    rewrite IH. unfold probe_seq, _probing.
    replace (5 + (p + 6 * Z.of_nat n) mod _size self + 1)
      with ((p + 6 * Z.of_nat n) mod _size self + 6) by lia.
    rewrite Zplus_mod_idemp_l. f_equal. lia.
Qed.

(** X5. In a table of an even size [_probing] keeps the parity of the
    slot, and [_size / 2] steps of it lead back to the slot they started
    from: a probe sees at most half of the slots, never one of the other
    parity. *)
Theorem _probing_stays_on_half self :
  0 < _size self ->
  _size self mod 2 = 0 ->
  (forall p, _probing self p mod 2 = p mod 2) /\
  (forall p, 0 <= p < _size self ->
     Nat.iter (Z.to_nat (_size self / 2)) (_probing self) p = p).
Proof.
  intros Hs Heven. split.
  - intros p. unfold _probing.
    rewrite Z.mod_mod_divide by (apply Z.mod_divide; [lia|assumption]).
    replace (5 + p + 1) with (p + 3 * 2) by lia. apply Z.mod_add. lia.
  - intros p Hp. rewrite iter__probing by assumption. unfold probe_seq.
    pose proof (Z.div_mod (_size self) 2 ltac:(lia)) as Hdiv.
    replace (6 * Z.of_nat (Z.to_nat (_size self / 2))) with (3 * _size self)
      by lia.
    rewrite Z_mod_plus_full. now apply Z.mod_small.
Qed.

Lemma _probing_stays_on_half_witness :
  0 < _size new_Hash /\ _size new_Hash mod 2 = 0 /\
  _probing new_Hash 3 mod 2 = 3 mod 2 /\
  Nat.iter (Z.to_nat (_size new_Hash / 2)) (_probing new_Hash) 3 = 3.
Proof.
  assert (Hs : 0 < _size new_Hash) by (cbn; lia).
  split; [exact Hs|]. split; [reflexivity|].
  destruct (_probing_stays_on_half new_Hash Hs eq_refl) as [Hpar Hper].
  split; [apply Hpar|]. apply Hper. cbn. lia.
Defined.

(** X6. When the placement of a key has not stopped after [_size]
    recursive calls it never stops, and neither does a search for the
    key that goes on from the same slot: the probe only sees slots again
    that it has seen. *)
Theorem probe_never_stops_after_size self p key value :
  wf self ->
  0 <= p < _size self ->
  _set_item (probe_fuel self) p key value self = None ->
  (forall n, _set_item n p key value self = None) /\
  (forall n, _get_pos_recursively n p key self = None).
Proof.
  intros Hwf Hp Hnone.
  assert (Hnever : forall i, ~ placement_stops self p key i).
  { intros i Hstop.
    rewrite (_set_item_stops self Hwf key value i (probe_fuel self) p)
      in Hnone; try assumption; [discriminate|].
    now apply placement_stops_lt_fuel with p key. }
  split; intros n.
  - destruct (_set_item n p key value self) as [r|] eqn:Hrun; [|reflexivity].
    apply _set_item_inv in Hrun as (i & _ & Hstop); try assumption.
    now destruct (Hnever i).
  - destruct (_get_pos_recursively n p key self) as [r|] eqn:Hrun;
      [|reflexivity].
    apply _get_pos_recursively_inv in Hrun as (i & _ & Hstop);
      [|assumption].
    destruct (slot_key_defined self Hwf p Hp) as (k & Hk).
    destruct (stops_placement key k) eqn:Hs.
    + destruct (Hnever 0%nat). split; [intros j Hj; lia|].
      exists k. now rewrite probe_seq_0.
    + destruct (Hnever (S i)). apply placement_stops_shift; [assumption|].
      exists k. now rewrite probe_seq_0.
Qed.

Lemma probe_never_stops_after_size_witness :
  wf even_slots_table /\
  0 <= 0 < _size even_slots_table /\
  _set_item (probe_fuel even_slots_table) 0 (PyInt 8) (PyStr "e")
            even_slots_table = None /\
  _set_item 1000 0 (PyInt 8) (PyStr "e") even_slots_table = None /\
  _get_pos_recursively 1000 0 (PyInt 8) even_slots_table = None.
Proof.
  assert (Hwf : wf even_slots_table)
    by (unfold wf; cbn; repeat split; reflexivity).
  assert (Hp : 0 <= 0 < _size even_slots_table) by (cbn; lia).
  split; [exact Hwf|]. split; [exact Hp|]. split; [reflexivity|].
  destruct (probe_never_stops_after_size even_slots_table 0 (PyInt 8)
              (PyStr "e") Hwf Hp eq_refl) as [Hset Hget].
  split; [apply Hset|apply Hget].
Defined.

(** ** What a put leaves alone *)

(** The path of a search for [k] is not changed when another key goes
    into a slot that was empty or held that other key. *)
Lemma placement_stops_placed_other self q0 key value k0 p k i :
  wf self -> 0 <= q0 < _size self ->
  getitem (_keys self) q0 = Ok k0 ->
  stops_placement key k0 = true ->
  key <> PyNone -> k <> PyNone -> k <> key ->
  placement_stops self p k i ->
  getitem (_keys self) (probe_seq self p i) = Ok k ->
  placement_stops (placed self q0 key value) p k i /\
  probe_seq self p i <> q0.
Proof.
  intros Hwf Hq0 Hk0 Hs0 Hnone Hknone Hne [Hb _] Hat.
  pose proof (wf_keys_length self Hwf) as Hlen.
  pose proof (probe_seq_range self Hwf p i) as Hri.
  assert (Hneq : probe_seq self p i <> q0).
  { intros Heq. rewrite Heq in Hat.
    apply stops_placement_true in Hs0 as [->| ->]; congruence. }
  split; [|assumption]. split.
  - intros j Hj. destruct (Hb j Hj) as (kj & Hkj & Hsj).
    pose proof (probe_seq_range self Hwf p j) as Hrj.
    change (probe_seq (placed self q0 key value) p j)
      with (probe_seq self p j).
    destruct (decide (probe_seq self p j = q0)) as [Heq|Hneq'].
    + exists key. split.
      * rewrite Heq. apply getitem_lookup; cbn [_keys placed].
        -- rewrite length_insert. lia.
        -- apply list_lookup_insert_eq. lia.
      * apply stops_placement_false. split; [assumption|congruence].
    + exists kj. split; [|assumption].
      apply getitem_lookup; cbn [_keys placed].
      * rewrite length_insert. lia.
      * rewrite list_lookup_insert_ne.
        -- apply getitem_lookup; [lia|assumption].
        -- intros Heq. apply Z2Nat.inj in Heq; lia.
  - exists k. change (probe_seq (placed self q0 key value) p i)
      with (probe_seq self p i).
    split; [|apply stops_placement_true; now right].
    apply getitem_lookup; cbn [_keys placed].
    + rewrite length_insert. lia.
    + rewrite list_lookup_insert_ne.
      * apply getitem_lookup; [lia|assumption].
      * intros Heq. apply Z2Nat.inj in Heq; lia.
Qed.

(** Where a [get] that answers a value found it. *)
Lemma get_Ok_found self k v self' :
  wf self ->
  get k self = Some (Ok v, self') ->
  self' = self /\ is_acceptable_key k = true /\
  exists hv i,
    hash self k = Ok hv /\
    placement_stops self (_calculate_position self hv) k i /\
    getitem (_keys self) (probe_seq self (_calculate_position self hv) i)
    = Ok k /\
    getitem (_values self) (probe_seq self (_calculate_position self hv) i)
    = Ok v.
Proof.
  intros Hwf Hget. unfold get in Hget. unfold bind at 1 in Hget.
  destruct (_get_pos k self) as [[[q|e] self1]|] eqn:Hpos; try discriminate.
  destruct (_get_pos_result _ _ _ _ Hwf Hpos)
    as (-> & [[_ ?]|[(_ & ? & _ & ?)|(Hkey & hv & i & Hhash & Hstop & Hres)]]);
    try discriminate.
  symmetry in Hres. apply lookup_result_Ok in Hres as (-> & k' & Hk & Hnone).
  assert (k' = k) as ->.
  { destruct Hstop as [_ (k0 & Hk0 & Hs)].
    apply stops_placement_true in Hs as [->| ->]; congruence. }
  unfold load_value in Hget. injection Hget as Hv <-.
  split; [reflexivity|]. split; [assumption|]. exists hv, i. auto.
Qed.

Lemma get_found self k v hv i :
  wf self ->
  is_acceptable_key k = true ->
  hash self k = Ok hv ->
  placement_stops self (_calculate_position self hv) k i ->
  getitem (_keys self) (probe_seq self (_calculate_position self hv) i)
  = Ok k ->
  getitem (_values self) (probe_seq self (_calculate_position self hv) i)
  = Ok v ->
  get k self = Some (Ok v, self).
Proof.
  intros Hwf Hkey Hhash Hstop Hk Hv. unfold get, bind.
  rewrite (_get_pos_stops self Hwf k hv Hkey Hhash i Hstop).
  unfold lookup_result. rewrite Hk.
  pose proof (acceptable_key_not_None k Hkey) as Hne.
  apply py_eq_false in Hne. rewrite Hne.
  unfold load_value. now rewrite Hv.
Qed.

(** X7. A [put] that does not grow the table does not disturb the other
    keys: what [get] answered for another key before, it answers after.
    This holds on every well-formed table, also after deletions. *)
Theorem put_keeps_other_keys self key value k v self' :
  wf self ->
  should_expand self = false ->
  k <> key ->
  get k self = Some (Ok v, self) ->
  put key value self = Some (Ok tt, self') ->
  get k self' = Some (Ok v, self').
Proof.
  intros Hwf Hexpand Hne Hget Hput.
  apply put_result in Hput
    as (self1 & hv0 & i0 & Hgrow & _ & Hkey & Hhash0 & Hstop0 & ->);
    [|assumption].
  rewrite Hexpand in Hgrow. subst self1.
  apply get_Ok_found in Hget
    as (_ & Hk & hv & i & Hhash & Hstop & Hat & Hval); [|assumption].
  set (q0 := probe_seq self (_calculate_position self hv0) i0).
  pose proof (probe_seq_range self Hwf (_calculate_position self hv0) i0)
    as Hq0. fold q0 in Hq0.
  pose proof (probe_seq_range self Hwf (_calculate_position self hv) i) as Hq.
  destruct Hstop0 as [_ (k0 & Hk0 & Hs0)]. fold q0 in Hk0.
  destruct (placement_stops_placed_other self q0 key value k0
              (_calculate_position self hv) k i)
    as [Hstop' Hneq]; try assumption;
    try (now apply acceptable_key_not_None).
  pose proof (wf_keys_length self Hwf) as Hlk.
  pose proof (wf_values_length self Hwf) as Hlv.
  apply (get_found (placed self q0 key value) k v hv i);
    try assumption; [now apply wf_placed| |].
  - change (probe_seq (placed self q0 key value)
              (_calculate_position (placed self q0 key value) hv) i)
      with (probe_seq self (_calculate_position self hv) i).
    apply getitem_lookup; cbn [_keys placed].
    + rewrite length_insert. lia.
    + rewrite list_lookup_insert_ne.
      * apply getitem_lookup; [lia|assumption].
      * intros Heq. apply Z2Nat.inj in Heq; lia.
  - change (probe_seq (placed self q0 key value)
              (_calculate_position (placed self q0 key value) hv) i)
      with (probe_seq self (_calculate_position self hv) i).
    apply getitem_lookup; cbn [_values placed].
    + rewrite length_insert. lia.
    + rewrite list_lookup_insert_ne.
      * apply getitem_lookup; [lia|assumption].
      * intros Heq. apply Z2Nat.inj in Heq; lia.
Qed.

Lemma put_keeps_other_keys_witness :
  wf collision_table /\
  should_expand collision_table = false /\
  PyInt 8 <> PyInt 16 /\
  get (PyInt 8) collision_table = Some (Ok (PyStr "b"), collision_table) /\
  put (PyInt 16) (PyStr "c") collision_table
  = Some (Ok tt, placed collision_table 4 (PyInt 16) (PyStr "c")) /\
  get (PyInt 8) (placed collision_table 4 (PyInt 16) (PyStr "c"))
  = Some (Ok (PyStr "b"), placed collision_table 4 (PyInt 16) (PyStr "c")).
Proof.
  assert (Hwf : wf collision_table)
    by (unfold wf; cbn; repeat split; reflexivity).
  split; [exact Hwf|]. split; [reflexivity|]. split; [discriminate|].
  split; [reflexivity|]. split; [reflexivity|].
  apply (put_keeps_other_keys collision_table (PyInt 16) (PyStr "c")
           (PyInt 8) (PyStr "b")).
  - exact Hwf.
  - reflexivity.
  - discriminate.
  - reflexivity.
  - reflexivity.
Defined.

(** X8. A [put] of a key that [get] finds, on a table that does not
    grow, writes the value into the slot where the search found the key:
    the keys stay as they are and [get] answers the new value. *)
Theorem put_existing_key_in_place self key v value :
  wf self ->
  should_expand self = false ->
  get key self = Some (Ok v, self) ->
  exists q,
    _get_pos key self = Some (Ok q, self) /\
    put key value self = Some (Ok tt, placed self q key value) /\
    _keys (placed self q key value) = _keys self /\
    _values (placed self q key value) = <[Z.to_nat q := value]> (_values self) /\
    get key (placed self q key value)
    = Some (Ok value, placed self q key value).
Proof.
  intros Hwf Hexpand Hget.
  apply get_Ok_found in Hget
    as (_ & Hkey & hv & i & Hhash & Hstop & Hat & Hval); [|assumption].
  pose proof (_calculate_position_range self Hwf hv) as Hp.
  pose proof (probe_seq_range self Hwf (_calculate_position self hv) i) as Hq.
  exists (probe_seq self (_calculate_position self hv) i).
  split.
  { rewrite (_get_pos_stops self Hwf key hv Hkey Hhash i Hstop).
    unfold lookup_result. rewrite Hat.
    pose proof (acceptable_key_not_None key Hkey) as Hne.
    apply py_eq_false in Hne. now rewrite Hne. }
  split.
  { unfold put, raise_if_not_acceptable_key. rewrite Hkey. cbn [negb].
    unfold bind at 1, ret. unfold bind at 1. rewrite Hexpand.
    unfold bind at 1, call_hash. rewrite Hhash.
    apply _set_item_stops; try assumption.
    now apply placement_stops_lt_fuel with (_calculate_position self hv) key. }
  split.
  { cbn [_keys placed]. apply list_insert_id.
    apply getitem_lookup; [|assumption]. now rewrite wf_keys_length. }
  split; [reflexivity|].
  now apply get_placed.
Qed.

Lemma put_existing_key_in_place_witness :
  wf collision_table /\
  should_expand collision_table = false /\
  get (PyInt 8) collision_table = Some (Ok (PyStr "b"), collision_table) /\
  put (PyInt 8) (PyStr "z") collision_table
  = Some (Ok tt, placed collision_table 6 (PyInt 8) (PyStr "z")) /\
  _keys (placed collision_table 6 (PyInt 8) (PyStr "z"))
  = _keys collision_table.
Proof.
  assert (Hwf : wf collision_table)
    by (unfold wf; cbn; repeat split; reflexivity).
  split; [exact Hwf|]. split; [reflexivity|]. split; [reflexivity|].
  destruct (put_existing_key_in_place collision_table (PyInt 8) (PyStr "b")
              (PyStr "z") Hwf eq_refl eq_refl)
    as (q & Hpos & Hput & Hkeys & _).
  injection Hpos as <-. split; [exact Hput|exact Hkeys].
Defined.

(** ** Deletion and the keys behind the deleted slot *)



(** ** Counting the slots that hold a key *)

Lemma filter_insert_le {A} (P : A -> Prop) `{forall x, Decision (P x)}
      (l : list A) : forall (i : nat) (x : A),
  (length (filter P (<[i:=x]> l)) <= S (length (filter P l)))%nat /\
  (~ P x -> (length (filter P (<[i:=x]> l)) <= length (filter P l))%nat).
Proof.
  induction l as [|y l IH]; intros i x.
  - destruct i; cbn; (split; [lia|intros _; lia]).
  - destruct i as [|i].
    + change (<[0%nat:=x]> (y :: l)) with (x :: l). rewrite !filter_cons.
      destruct (decide (P x)), (decide (P y)); cbn [length];
        split; try tauto; try lia.
    + change (<[S i:=x]> (y :: l)) with (y :: <[i:=x]> l).
      rewrite !filter_cons.
      destruct (IH i x) as [IH1 IH2].
      destruct (decide (P y)); cbn [length]; split; try lia;
        intros Hx; specialize (IH2 Hx); lia.
Qed.

Lemma live_slots_placed self q key value :
  (live_slots (placed self q key value) <= S (live_slots self))%nat.
Proof. unfold live_slots. cbn [_keys placed]. apply filter_insert_le. Qed.

Lemma live_slots_deleted self q :
  (live_slots (deleted self q) <= live_slots self)%nat.
Proof.
  unfold live_slots. cbn [_keys deleted].
  apply filter_insert_le. intros Hne. now apply Hne.
Qed.

Lemma live_slots_le_size self :
  wf self -> Z.of_nat (live_slots self) <= _size self.
Proof.
  intros Hwf. unfold live_slots.
  pose proof (length_filter (fun k => k <> PyNone) (_keys self)).
  pose proof (wf_keys_length self Hwf). lia.
Qed.

Lemma filter_replicate_None (n : nat) :
  filter (fun k => k <> PyNone) (replicate n PyNone) = [].
Proof.
  induction n as [|n IH]; [reflexivity|].
  cbn [replicate]. rewrite filter_cons.
  destruct (decide (PyNone <> PyNone)); [congruence|assumption].
Qed.

(** An array that is not full has an empty slot. *)
Lemma empty_slot_exists (ks : list pyobj) :
  (length (filter (fun k => k <> PyNone) ks) < length ks)%nat ->
  exists q : nat, ks !! q = Some PyNone.
Proof.
  induction ks as [|k ks IH]; cbn [length]; [lia|].
  rewrite filter_cons. destruct (decide (k <> PyNone)) as [Hk|Hk].
  - cbn [length]. intros Hlt. destruct IH as [q Hq]; [lia|].
    now exists (S q).
  - intros _. exists 0%nat. cbn.
    destruct (decide (k = PyNone)) as [->|]; [reflexivity|contradiction].
Qed.




(** ** The counters of the tables that calls produce *)

Lemma should_expand_false self :
  0 < _size self ->
  should_expand self = false ->
  10 * (_used_slots self + _dummy_slots self) < 7 * _size self.
Proof.
  unfold should_expand, _max_threshold_num, _max_threshold_den.
  change (2 ^ 53) with 9007199254740992.
  intros Hs Hexp. apply Z.leb_gt in Hexp. lia.
Qed.

Lemma _reposition_live kvs : forall self r self',
  wf self ->
  _reposition kvs self = Some (r, self') ->
  Z.of_nat (live_slots self) <= _used_slots self ->
  Z.of_nat (live_slots self') <= _used_slots self'.
Proof.
  induction kvs as [|[key value] kvs IH]; intros self r self' Hwf Hrun Hlive.
  - now injection Hrun as <- <-.
  - cbn [_reposition] in Hrun. unfold bind at 1 in Hrun.
    destruct (py_eq key PyNone); cbn [negb] in Hrun.
    + now apply IH in Hrun.
    + unfold bind at 1, call_hash in Hrun.
      destruct (hash self key) as [hv|e];
        [|now injection Hrun as <- <-].
      destruct (_set_item _ _ _ _ self) as [[r1 self1]|] eqn:Hset;
        [|discriminate].
      apply _set_item_result in Hset as (i & _ & -> & ->);
        [|assumption|now apply _calculate_position_range].
      apply IH in Hrun; [assumption|now apply wf_placed|].
      pose proof (live_slots_placed self
                    (probe_seq self (_calculate_position self hv) i)
                    key value).
      cbn [_used_slots placed]. lia.
Qed.

(** What [_resize] leaves, for the counters. *)
Lemma _resize_counters self self1 :
  valid self ->
  _resize self = Some (Ok tt, self1) ->
  valid self1 /\
  _size self1 = _size self * 4 /\
  _dummy_slots self1 = 0 /\
  _used_slots self1 = Z.of_nat (live_slots self) /\
  Z.of_nat (live_slots self1) <= _used_slots self1.
Proof.
  intros (Hwf & Hhash & Hkeys & H3) Hres.
  destruct (_resize_terminates self Hwf Hhash Hkeys H3)
    as (self1' & occ & Hres' & Hch1 & Hs1 & Hh1 & Hd1 & Hu1 & _).
  rewrite Hres in Hres'. injection Hres' as <-.
  split.
  { split; [apply Hch1|]. split; [congruence|].
    split; [now apply chained_keys_acceptable_true|].
    rewrite Hs1. now apply grown_size. }
  split; [assumption|]. split; [assumption|]. split; [assumption|].
  unfold _resize in Hres. cbv zeta in Hres.
  apply _reposition_live in Hres; [assumption| |].
  - pose proof Hwf as (Hs & _). unfold wf. cbn.
    rewrite !length_replicate. repeat split; lia.
  - unfold live_slots. cbn [_keys _used_slots].
    rewrite filter_replicate_None. cbn. lia.
Qed.

Lemma counted_new_Hash : counted new_Hash.
Proof.
  split; [exact valid_new_Hash|].
  repeat split; first [reflexivity | vm_compute; discriminate].
Qed.

Lemma counted_put self key value r self' :
  counted self -> put key value self = Some (r, self') -> counted self'.
Proof.
  intros (Hvalid & H8 & Heven & Hlive & Hused & Hdummy) Hrun.
  destruct (put_outcome _ _ _ _ _ Hvalid Hrun)
    as [(_ & _ & ->)|(Hkey & _ & self1 & hv & i & Hgrow & Hvalid1 & _ & _ & ->)].
  { split; [assumption|repeat split; assumption]. }
  set (q := probe_seq self1 (_calculate_position self1 hv) i).
  pose proof (live_slots_placed self1 q key value) as Hlp.
  split; [now apply valid_placed|]. cbn [_size _used_slots _dummy_slots placed].
  destruct (should_expand self) eqn:Hexp.
  - destruct (_resize_counters self self1 Hvalid Hgrow)
      as (_ & Hs1 & Hd1 & Hu1 & Hlive1).
    pose proof (live_slots_le_size self (proj1 Hvalid)) as Hle.
    rewrite Hs1, Hd1.
    assert ((_size self * 4) mod 2 = 0).
    { replace (_size self * 4) with (_size self * 2 * 2) by lia.
      apply Z.mod_mul. lia. }
    repeat split; try lia.
  - subst self1.
    pose proof (should_expand_false self ltac:(lia) Hexp).
    repeat split; try assumption; lia.
Qed.

Lemma counted_delete self key r self' :
  counted self -> delete key self = Some (r, self') -> counted self'.
Proof.
  intros (Hvalid & H8 & Heven & Hlive & Hused & Hdummy) Hrun.
  pose proof Hvalid as (Hwf & _).
  pose proof (valid_delete _ _ _ _ Hvalid Hrun) as Hvalid'.
  unfold delete in Hrun. unfold bind at 1 in Hrun.
  destruct (_get_pos key self) as [[[q|e] self1]|] eqn:Hpos;
    [| |discriminate].
  - destruct (_get_pos_result _ _ _ _ Hwf Hpos)
      as (-> & [[_ ?]|[(_ & ? & _ & ?)|(_ & hv & i & _ & _ & Hres)]]);
      try discriminate.
    symmetry in Hres. apply lookup_result_Ok in Hres as (-> & _).
    rewrite _delete_item_ok in Hrun;
      [|assumption|now apply probe_seq_range].
    injection Hrun as <- <-.
    pose proof (live_slots_deleted self
                  (probe_seq self (_calculate_position self hv) i)).
    split; [assumption|]. cbn [_size _used_slots _dummy_slots deleted].
    repeat split; try assumption; lia.
  - apply _get_pos_result in Hpos as [-> _]; [|assumption].
    injection Hrun as <- <-.
    split; [assumption|repeat split; assumption].
Qed.

Lemma counted_run ops : forall self self',
  counted self -> run ops self = Some self' -> counted self'.
Proof.
  induction ops as [|o ops IH]; intros self self' Hc Hrun.
  - now injection Hrun as <-.
  - cbn [run] in Hrun.
    destruct (step o self) as [self1|] eqn:Hstep; [|discriminate].
    apply (IH self1); [|assumption].
    destruct o as [key value|key|key]; cbn [step] in Hstep;
      unfold exec in Hstep.
    + destruct (put key value self) as [[r s]|] eqn:Hput; [|discriminate].
      injection Hstep as <-. now apply counted_put in Hput.
    + destruct (get key self) as [[r s]|] eqn:Hget; [|discriminate].
      injection Hstep as <-. apply get_frame in Hget as ->; [assumption|].
      apply Hc.
    + destruct (delete key self) as [[r s]|] eqn:Hdel; [|discriminate].
      injection Hstep as <-. now apply counted_delete in Hdel.
Qed.

(** X10. After every sequence of calls on a new table, the number of
    slots that hold a key is at most [_used_slots], [_used_slots] is
    below [_size] and [_dummy_slots] is not negative: the table is never
    full, some slot is empty. *)
Theorem reachable_table_is_never_full ops self :
  run ops new_Hash = Some self ->
  Z.of_nat (live_slots self) <= _used_slots self /\
  _used_slots self < _size self /\
  0 <= _dummy_slots self /\
  exists q : nat, _keys self !! q = Some PyNone.
Proof.
  intros Hrun.
  destruct (counted_run ops new_Hash self counted_new_Hash Hrun)
    as ((Hwf & _) & _ & _ & Hlive & Hused & Hdummy).
  repeat (split; [assumption|]).
  apply empty_slot_exists. fold (live_slots self).
  pose proof (wf_keys_length self Hwf). lia.
Qed.

Lemma reachable_table_is_never_full_witness :
  exists self,
    run [Put (PyInt 1) (PyStr "a"); Put (PyInt 1) (PyStr "b");
         Delete (PyInt 1); Put (PyInt 9) (PyStr "c")] new_Hash = Some self /\
    Z.of_nat (live_slots self) <= _used_slots self /\
    _used_slots self < _size self /\
    0 <= _dummy_slots self /\
    exists q : nat, _keys self !! q = Some PyNone.
Proof.
  eexists. split; [vm_compute; reflexivity|].
  apply (reachable_table_is_never_full
           [Put (PyInt 1) (PyStr "a"); Put (PyInt 1) (PyStr "b");
            Delete (PyInt 1); Put (PyInt 9) (PyStr "c")]).
  vm_compute; reflexivity.
Defined.

(** ** The size *)

Lemma delete_frame self key r self' :
  valid self -> delete key self = Some (r, self') ->
  self' = self \/ exists q, self' = deleted self q.
Proof.
  intros Hvalid Hrun. pose proof Hvalid as (Hwf & _).
  unfold delete in Hrun. unfold bind at 1 in Hrun.
  destruct (_get_pos key self) as [[[q|e] self1]|] eqn:Hpos;
    [| |discriminate].
  - destruct (_get_pos_result _ _ _ _ Hwf Hpos)
      as (-> & [[_ ?]|[(_ & ? & _ & ?)|(_ & hv & i & _ & _ & Hres)]]);
      try discriminate.
    symmetry in Hres. apply lookup_result_Ok in Hres as (-> & _).
    rewrite _delete_item_ok in Hrun;
      [|assumption|now apply probe_seq_range].
    injection Hrun as <- <-. eauto.
  - apply _get_pos_result in Hpos as [-> _]; [|assumption].
    injection Hrun as <- <-. now left.
Qed.

Lemma step_size o self self' :
  valid self -> step o self = Some self' ->
  valid self' /\
  (_size self' = _size self \/ _size self' = _size self * 4).
Proof.
  intros Hvalid Hstep. pose proof Hvalid as (Hwf & _).
  destruct o as [key value|key|key]; cbn [step] in Hstep;
    unfold exec in Hstep.
  - destruct (put key value self) as [[r s]|] eqn:Hput; [|discriminate].
    injection Hstep as <-.
    split; [now apply valid_put in Hput|].
    destruct (put_outcome _ _ _ _ _ Hvalid Hput)
      as [(_ & _ & ->)|(_ & _ & self1 & hv & i & Hgrow & _ & _ & _ & ->)];
      [now left|].
    cbn [_size placed]. destruct (should_expand self).
    + right. now destruct (_resize_counters self self1 Hvalid Hgrow) as (_ & ? & _).
    + left. now subst.
  - destruct (get key self) as [[r s]|] eqn:Hget; [|discriminate].
    injection Hstep as <-. apply get_frame in Hget as ->; auto.
  - destruct (delete key self) as [[r s]|] eqn:Hdel; [|discriminate].
    injection Hstep as <-.
    split; [now apply valid_delete in Hdel|].
    destruct (delete_frame self key r s Hvalid Hdel) as [->|[q ->]];
      now left.
Qed.

Lemma run_size ops : forall self self',
  valid self -> run ops self = Some self' ->
  valid self' /\ exists n : nat, _size self' = _size self * 4 ^ Z.of_nat n.
Proof.
  induction ops as [|o ops IH]; intros self self' Hvalid Hrun.
  - injection Hrun as <-. split; [assumption|]. exists 0%nat. cbn. lia.
  - cbn [run] in Hrun.
    destruct (step o self) as [self1|] eqn:Hstep; [|discriminate].
    destruct (step_size o self self1 Hvalid Hstep) as [Hvalid1 Hsize].
    destruct (IH self1 self' Hvalid1 Hrun) as (Hvalid' & n & Hn).
    split; [assumption|].
    destruct Hsize as [Hsame|Hgrown].
    + exists n. now rewrite Hn, Hsame.
    + exists (S n). rewrite Hn, Hgrown, Nat2Z.inj_succ, Z.pow_succ_r by lia.
      lia.
Qed.

(** X11. The size of the table never goes down and only changes by
    factors of 4: after every sequence of calls on a valid table the
    size is the old size times a power of 4, and both arrays have that
    many slots. *)
Theorem size_grows_by_powers_of_four ops self self' :
  valid self ->
  run ops self = Some self' ->
  (exists n : nat, _size self' = _size self * 4 ^ Z.of_nat n) /\
  _size self <= _size self' /\
  length (_keys self') = Z.to_nat (_size self') /\
  length (_values self') = Z.to_nat (_size self').
Proof.
  intros Hvalid Hrun.
  destruct (run_size ops self self' Hvalid Hrun)
    as (((_ & Hlk & Hlv) & _) & n & Hn).
  split; [eauto|]. split; [|auto].
  destruct Hvalid as ((Hs & _) & _).
  assert (1 <= 4 ^ Z.of_nat n) by (apply Z.pow_le_mono_r with (b := 0); lia).
  nia.
Qed.

Lemma size_grows_by_powers_of_four_witness :
  valid new_Hash /\
  exists self',
    run [Put (PyInt 1) (PyStr "a"); Put (PyInt 2) (PyStr "b");
         Put (PyInt 3) (PyStr "c"); Put (PyInt 4) (PyStr "d");
         Put (PyInt 5) (PyStr "e"); Put (PyInt 6) (PyStr "f");
         Delete (PyInt 1); Put (PyInt 7) (PyStr "g")] new_Hash
    = Some self' /\
    _size self' = 32 /\
    (exists n : nat, _size self' = _size new_Hash * 4 ^ Z.of_nat n) /\
    _size new_Hash <= _size self' /\
    length (_keys self') = Z.to_nat (_size self') /\
    length (_values self') = Z.to_nat (_size self').
Proof.
  assert (Hvalid : valid new_Hash).
  { split; [unfold wf; cbn; repeat split; reflexivity|].
    repeat split. cbn. discriminate. }
  split; [exact Hvalid|]. eexists.
  split; [vm_compute; reflexivity|]. split; [reflexivity|].
  apply (size_grows_by_powers_of_four
           [Put (PyInt 1) (PyStr "a"); Put (PyInt 2) (PyStr "b");
            Put (PyInt 3) (PyStr "c"); Put (PyInt 4) (PyStr "d");
            Put (PyInt 5) (PyStr "e"); Put (PyInt 6) (PyStr "f");
            Delete (PyInt 1); Put (PyInt 7) (PyStr "g")] new_Hash).
  - exact Hvalid.
  - vm_compute; reflexivity.
Defined.

(** X12. A [put] that grows the table leaves it far from the threshold:
    the size is 4 times the old one, [_dummy_slots] is 0, [_used_slots]
    is one more than the number of slots that held a key, and
    [should_expand] is false, so the next [put] does not grow again. *)
Theorem growing_put_leaves_room self key value self' :
  valid self ->
  should_expand self = true ->
  put key value self = Some (Ok tt, self') ->
  _size self' = _size self * 4 /\
  _dummy_slots self' = 0 /\
  _used_slots self' = Z.of_nat (live_slots self) + 1 /\
  should_expand self' = false.
Proof.
  intros Hvalid Hexp Hput.
  destruct (put_outcome _ _ _ _ _ Hvalid Hput)
    as [(_ & ? & _)|(_ & _ & self1 & hv & i & Hgrow & _ & _ & _ & ->)];
    [discriminate|].
  rewrite Hexp in Hgrow.
  destruct (_resize_counters self self1 Hvalid Hgrow)
    as (_ & Hs1 & Hd1 & Hu1 & _).
  pose proof (live_slots_le_size self (proj1 Hvalid)) as Hle.
  destruct Hvalid as ((Hs & _) & _).
  cbn [_size _used_slots _dummy_slots placed].
  repeat (split; [congruence|]).
  unfold should_expand, _max_threshold_num, _max_threshold_den.
  cbn [_size _used_slots _dummy_slots placed]. rewrite Hs1, Hd1, Hu1.
  change (2 ^ 53) with 9007199254740992. apply Z.leb_gt. lia.
Qed.

Lemma growing_put_leaves_room_witness :
  valid full_table /\
  should_expand full_table = true /\
  exists self',
    put (PyStr "g") (PyInt 7) full_table = Some (Ok tt, self') /\
    _size self' = _size full_table * 4 /\
    _dummy_slots self' = 0 /\
    _used_slots self' = Z.of_nat (live_slots full_table) + 1 /\
    should_expand self' = false.
Proof.
  assert (Hvalid : valid full_table).
  { split; [unfold wf; cbn; repeat split; reflexivity|].
    repeat split. cbn. discriminate. }
  split; [exact Hvalid|]. split; [reflexivity|]. eexists.
  split; [vm_compute; reflexivity|].
  apply (growing_put_leaves_room full_table (PyStr "g") (PyInt 7)).
  - exact Hvalid.
  - reflexivity.
  - vm_compute; reflexivity.
Defined.

(** ** When the calls return *)



(** ** Tables built by put and get behave like a dictionary *)

Lemma stored_unique self k v v' :
  unique_keys self -> k <> PyNone ->
  stored self k v -> stored self k v' -> v = v'.
Proof.
  intros Huniq Hne (q & Hk & Hv) (q' & Hk' & Hv').
  assert (q = q') as <- by eauto. congruence.
Qed.

Lemma stored_last_value self k v :
  unique_keys self -> k <> PyNone -> stored self k v ->
  last_value (zip (_keys self) (_values self)) k = Some v.
Proof.
  intros Huniq Hne (q & Hk & Hv).
  apply last_value_lookup with q; try assumption.
  intros q' Hq' Hk'. assert (q = q') by eauto. lia.
Qed.

(** The keys that [_reposition] leaves in the table were there before
    or are among the pairs it inserted. *)
Lemma _reposition_keys_from kvs : forall self r self',
  wf self ->
  _reposition kvs self = Some (r, self') ->
  forall (q : nat) k, _keys self' !! q = Some k -> k <> PyNone ->
    k ∈ _keys self \/ k ∈ kvs.*1.
Proof.
  induction kvs as [|[key value] kvs IH]; intros self r self' Hwf Hrun q k Hq Hne.
  - injection Hrun as <- <-. left. apply list_elem_of_lookup. eauto.
  - cbn [_reposition] in Hrun. unfold bind at 1 in Hrun.
    cbn [fmap list_fmap fst].
    destruct (py_eq key PyNone); cbn [negb] in Hrun.
    + destruct (IH _ _ _ Hwf Hrun q k Hq Hne); [now left|right; now right].
    + unfold bind at 1, call_hash in Hrun.
      destruct (hash self key) as [hv|e].
      * destruct (_set_item _ _ _ _ self) as [[r1 self1]|] eqn:Hset;
          [|discriminate].
        apply _set_item_result in Hset as (i & _ & -> & ->);
          [|assumption|now apply _calculate_position_range].
        destruct (IH _ _ _ (wf_placed _ _ key value Hwf) Hrun q k Hq Hne)
          as [Hin|Hin]; [|right; now right].
        cbn [_keys placed] in Hin.
        apply list_elem_of_lookup in Hin as [q' Hq'].
        destruct (decide (q' = Z.to_nat
                    (probe_seq self (_calculate_position self hv) i)))
          as [->|Hqq].
        -- pose proof (lookup_lt_Some _ _ _ Hq') as Hlt.
           rewrite length_insert in Hlt.
           rewrite list_lookup_insert_eq in Hq' by assumption.
           injection Hq' as <-. right. now left.
        -- rewrite list_lookup_insert_ne in Hq' by congruence.
           left. apply list_elem_of_lookup. eauto.
      * injection Hrun as <- <-. left. apply list_elem_of_lookup. eauto.
Qed.

(** What a [put] on a chained table stores and keeps. *)
Lemma put_stored self key value r self' :
  chained self -> valid self ->
  put key value self = Some (r, self') ->
  (r = Raise TypeError /\ is_acceptable_key key = false /\ self' = self) \/
  (r = Ok tt /\ is_acceptable_key key = true /\
   stored self' key value /\
   (forall k v, k <> PyNone -> k <> key ->
      stored self k v -> stored self' k v) /\
   (forall (q : nat) k, _keys self' !! q = Some k -> k <> PyNone ->
      k = key \/ k ∈ _keys self)).
Proof.
  intros Hch Hvalid Hput.
  destruct (put_outcome _ _ _ _ _ Hvalid Hput)
    as [(Hkey & -> & ->)|(Hkey & -> & self1 & hv & i & Hgrow & Hvalid1 & Hhv
                           & Hstop & ->)]; [now left|right].
  split; [reflexivity|]. split; [assumption|].
  pose proof Hvalid1 as (Hwf1 & _).
  set (q0 := probe_seq self1 (_calculate_position self1 hv) i).
  pose proof (probe_seq_range self1 Hwf1 (_calculate_position self1 hv) i)
    as Hq0. fold q0 in Hq0.
  assert (Hkeep : (forall k v, k <> PyNone ->
                     stored self k v -> stored self1 k v) /\
                  (forall (q : nat) k, _keys self1 !! q = Some k ->
                     k <> PyNone -> k ∈ _keys self)).
  { destruct (should_expand self); [|subst self1; split; [auto|]].
    - destruct Hvalid as (Hwf & Hhash & Hkeys & H3).
      destruct (_resize_terminates self Hwf Hhash Hkeys H3)
        as (self1' & occ & Hres & _ & _ & _ & _ & _ & _ & _ & Hval).
      rewrite Hgrow in Hres. injection Hres as <-. split.
      + intros k v Hne Hst. apply Hval; [assumption|].
        apply stored_last_value; try assumption.
        now apply chained_unique_keys.
      + intros q k Hq Hne.
        unfold _resize in Hgrow. cbv zeta in Hgrow.
        apply _reposition_keys_from with (q := q) (k := k) in Hgrow;
          try assumption.
        * destruct Hgrow as [Hin|Hin].
          -- cbn [_keys] in Hin. apply elem_of_replicate in Hin as [-> _].
             congruence.
          -- apply list_elem_of_fmap in Hin as ([k' v'] & -> & Hin).
             now apply elem_of_zip_l in Hin.
        * pose proof Hwf as (Hs & _). unfold wf. cbn.
          rewrite !length_replicate. repeat split; lia.
    - intros q k Hq _. apply list_elem_of_lookup. eauto. }
  destruct Hkeep as [Hkeep Horigin].
  destruct Hstop as [_ (k0 & Hk0 & Hs0)]. fold q0 in Hk0.
  split; [now apply stored_placed|]. split.
  - intros k v Hne Hkk Hst.
    apply (stored_placed_other self1 q0 key value k0); auto.
  - intros q k Hq Hne. cbn [_keys placed] in Hq.
    destruct (decide (q = Z.to_nat q0)) as [->|Hqq0].
    + rewrite list_lookup_insert_eq in Hq
        by (pose proof (wf_keys_length self1 Hwf1); lia).
      injection Hq as <-. now left.
    + rewrite list_lookup_insert_ne in Hq by congruence. right. eauto.
Qed.

Lemma no_delete_step o self self' :
  chained self -> valid self ->
  negb (is_delete o) = true ->
  step o self = Some self' ->
  chained self' /\ valid self'.
Proof.
  intros Hch Hvalid Ho Hstep.
  destruct o as [key value|key|key]; [| |discriminate];
    cbn [step] in Hstep; unfold exec in Hstep.
  - destruct (put key value self) as [[r s]|] eqn:Hput; [|discriminate].
    injection Hstep as <-.
    split; [now apply chained_put in Hput|now apply valid_put in Hput].
  - destruct (get key self) as [[r s]|] eqn:Hget; [|discriminate].
    injection Hstep as <-. apply get_frame in Hget as ->; [auto|].
    apply Hch.
Qed.

(** After calls of [put] and [get], a key is stored with the value of
    its last [put], and only keys that were put or were there before
    are stored. *)
Lemma run_dictionary ops : forall self self',
  chained self -> valid self ->
  forallb (fun o => negb (is_delete o)) ops = true ->
  run ops self = Some self' ->
  forall k, is_acceptable_key k = true ->
    match last_put ops k with
    | Some v => stored self' k v
    | None => forall v, stored self k v -> stored self' k v
    end /\
    (forall q : nat, _keys self' !! q = Some k ->
       is_Some (last_put ops k) \/ k ∈ _keys self).
Proof.
  induction ops as [|o ops IH]; intros self self' Hch Hvalid Hops Hrun k Hk.
  - injection Hrun as <-. cbn [last_put]. split; [auto|].
    intros q Hq. right. apply list_elem_of_lookup. eauto.
  - cbn [forallb] in Hops. apply andb_true_iff in Hops as [Ho Hops].
    cbn [run] in Hrun.
    destruct (step o self) as [self1|] eqn:Hstep; [|discriminate].
    destruct (no_delete_step o self self1 Hch Hvalid Ho Hstep)
      as [Hch1 Hvalid1].
    destruct (IH self1 self' Hch1 Hvalid1 Hops Hrun k Hk) as [Hval Horigin].
    pose proof (acceptable_key_not_None k Hk) as Hne.
    assert (Hstep' :
              (forall v, stored self k v -> stored self1 k v) /\
              (forall q : nat, _keys self1 !! q = Some k -> k ∈ _keys self)
              \/ exists value, o = Put k value /\ stored self1 k value).
    { destruct o as [key value|key|key]; [| |discriminate];
        cbn [step] in Hstep; unfold exec in Hstep.
      - destruct (put key value self) as [[r s]|] eqn:Hput; [|discriminate].
        injection Hstep as <-.
        destruct (put_stored _ _ _ _ _ Hch Hvalid Hput)
          as [(_ & _ & ->)|(_ & _ & Hst & Hother & Hfrom)].
        + left. split; [auto|]. intros q Hq.
          apply list_elem_of_lookup. eauto.
        + destruct (decide (k = key)) as [->|Hkk]; [right; eauto|].
          left. split; [auto|]. intros q Hq.
          destruct (Hfrom q k Hq Hne); [contradiction|assumption].
      - destruct (get key self) as [[r s]|] eqn:Hget; [|discriminate].
        injection Hstep as <-. apply get_frame in Hget as ->; [|apply Hch].
        left. split; [auto|]. intros q Hq.
        apply list_elem_of_lookup. eauto. }
    cbn [last_put].
    destruct (last_put ops k) as [v|] eqn:Hlast.
    + split; [assumption|]. intros q Hq. left. eauto.
    + destruct Hstep' as [[Hkeep Hfrom]|(value & -> & Hst)].
      * split.
        -- destruct o as [key value|key|key]; auto.
           destruct (py_eq key k) eqn:Heq; [|auto].
           apply py_eq_true in Heq as ->.
           (* the put of [k] itself raised: it cannot, [k] is acceptable *)
           cbn [step] in Hstep. unfold exec in Hstep.
           destruct (put k value self) as [[r s]|] eqn:Hput; [|discriminate].
           injection Hstep as <-.
           destruct (put_stored _ _ _ _ _ Hch Hvalid Hput)
             as [(_ & ? & _)|(_ & _ & Hst & _)]; [congruence|auto].
        -- intros q Hq. destruct (Horigin q Hq) as [[? ?]|Hin];
             [discriminate|].
           apply list_elem_of_lookup in Hin as [q1 Hq1]. right. eauto.
      * rewrite py_eq_refl. split; [auto|]. intros q Hq. left. eauto.
Qed.

(** X14. Tables built by [put] and [get] alone behave like a
    dictionary: after such a sequence of calls on a new table, [get]
    answers a value for an integer or text key exactly when the key was
    put, and the value is that of its last [put]. *)
Theorem get_answers_last_put ops self k v :
  forallb (fun o => negb (is_delete o)) ops = true ->
  run ops new_Hash = Some self ->
  is_acceptable_key k = true ->
  get k self = Some (Ok v, self) <-> last_put ops k = Some v.
Proof.
  intros Hops Hrun Hk.
  pose proof (chained_run ops new_Hash self chained_new_Hash Hops Hrun)
    as Hch.
  destruct (run_dictionary ops new_Hash self chained_new_Hash valid_new_Hash
              Hops Hrun k Hk) as [Hval Horigin].
  pose proof (acceptable_key_not_None k Hk) as Hne.
  split.
  - intros Hget.
    apply get_Ok_found in Hget
      as (_ & _ & hv & i & _ & _ & Hat & Hv); [|apply Hch].
    pose proof (probe_seq_range self (proj1 Hch)
                  (_calculate_position self hv) i) as Hq.
    assert (Hst : stored self k v).
    { exists (Z.to_nat (probe_seq self (_calculate_position self hv) i)).
      split; apply getitem_lookup; try assumption.
      - now rewrite (wf_keys_length self (proj1 Hch)).
      - now rewrite (wf_values_length self (proj1 Hch)). }
    destruct Hst as (q & Hqk & Hqv).
    destruct (Horigin q Hqk) as [[v' Hv']|Hin].
    + rewrite Hv' in Hval |- *. f_equal.
      apply (stored_unique self k v' v); try assumption.
      * now apply chained_unique_keys.
      * now exists q.
    + cbn in Hin. apply elem_of_replicate in Hin as [-> _]. congruence.
  - intros Hlast. rewrite Hlast in Hval. now apply get_stored.
Qed.

Lemma get_answers_last_put_witness :
  forallb (fun o => negb (is_delete o))
          [Put (PyInt 0) (PyStr "a"); Put (PyInt 8) (PyStr "b");
           Get (PyInt 8); Put (PyInt 0) (PyStr "c")] = true /\
  is_acceptable_key (PyInt 0) = true /\
  last_put [Put (PyInt 0) (PyStr "a"); Put (PyInt 8) (PyStr "b");
            Get (PyInt 8); Put (PyInt 0) (PyStr "c")] (PyInt 0)
  = Some (PyStr "c") /\
  exists self,
    run [Put (PyInt 0) (PyStr "a"); Put (PyInt 8) (PyStr "b");
         Get (PyInt 8); Put (PyInt 0) (PyStr "c")] new_Hash = Some self /\
    get (PyInt 0) self = Some (Ok (PyStr "c"), self).
Proof.
  split; [reflexivity|]. split; [reflexivity|]. split; [reflexivity|].
  eexists. split; [vm_compute; reflexivity|].
  apply (get_answers_last_put
           [Put (PyInt 0) (PyStr "a"); Put (PyInt 8) (PyStr "b");
            Get (PyInt 8); Put (PyInt 0) (PyStr "c")]).
  - reflexivity.
  - vm_compute; reflexivity.
  - reflexivity.
  - reflexivity.
Defined.

(** X15. After a sequence of [put] and [get] calls on a new table,
    every slot that holds a key is found: [get] of the key answers the
    value of that slot. *)
Theorem get_finds_every_stored_key ops self (q : nat) k v :
  forallb (fun o => negb (is_delete o)) ops = true ->
  run ops new_Hash = Some self ->
  _keys self !! q = Some k ->
  k <> PyNone ->
  _values self !! q = Some v ->
  get k self = Some (Ok v, self).
Proof.
  intros Hops Hrun Hk Hne Hv.
  apply get_stored; [|assumption|now exists q].
  exact (chained_run ops new_Hash self chained_new_Hash Hops Hrun).
Qed.

Lemma get_finds_every_stored_key_witness :
  forallb (fun o => negb (is_delete o))
          [Put (PyInt 0) (PyStr "a"); Put (PyInt 8) (PyStr "b")] = true /\
  run [Put (PyInt 0) (PyStr "a"); Put (PyInt 8) (PyStr "b")] new_Hash
  = Some collision_table /\
  _keys collision_table !! 6%nat = Some (PyInt 8) /\
  PyInt 8 <> PyNone /\
  _values collision_table !! 6%nat = Some (PyStr "b") /\
  get (PyInt 8) collision_table = Some (Ok (PyStr "b"), collision_table).
Proof.
  split; [reflexivity|]. split; [vm_compute; reflexivity|].
  split; [reflexivity|]. split; [discriminate|]. split; [reflexivity|].
  apply (get_finds_every_stored_key
           [Put (PyInt 0) (PyStr "a"); Put (PyInt 8) (PyStr "b")]
           collision_table 6%nat).
  - reflexivity.
  - vm_compute; reflexivity.
  - reflexivity.
  - discriminate.
  - reflexivity.
Defined.

(** X16. On a chained, valid table (such as the tables that [put] and
    [get] build) a [put] that returns does not disturb the other keys,
    also when it grows the table: what [get] answered for another key
    before, it answers after. *)
Theorem growing_put_keeps_other_keys self key value k v self' :
  chained self ->
  valid self ->
  k <> key ->
  get k self = Some (Ok v, self) ->
  put key value self = Some (Ok tt, self') ->
  get k self' = Some (Ok v, self').
Proof.
  intros Hch Hvalid Hne Hget Hput.
  pose proof (chained_put _ _ _ _ _ Hch Hput) as Hch'.
  apply get_Ok_found in Hget
    as (_ & Hk & hv & i & _ & _ & Hat & Hv); [|apply Hch].
  pose proof (probe_seq_range self (proj1 Hch) (_calculate_position self hv) i)
    as Hq.
  pose proof (acceptable_key_not_None k Hk) as Hknone.
  assert (Hst : stored self k v).
  { exists (Z.to_nat (probe_seq self (_calculate_position self hv) i)).
    split; apply getitem_lookup; try assumption.
    - now rewrite (wf_keys_length self (proj1 Hch)).
    - now rewrite (wf_values_length self (proj1 Hch)). }
  destruct (put_stored _ _ _ _ _ Hch Hvalid Hput)
    as [(? & _)|(_ & _ & _ & Hother & _)]; [discriminate|].
  apply get_stored; auto.
Qed.

Lemma growing_put_keeps_other_keys_witness :
  chained full_table /\
  valid full_table /\
  PyStr "a" <> PyStr "g" /\
  get (PyStr "a") full_table = Some (Ok (PyInt 1), full_table) /\
  exists self',
    put (PyStr "g") (PyInt 7) full_table = Some (Ok tt, self') /\
    _size self' = 32 /\
    get (PyStr "a") self' = Some (Ok (PyInt 1), self').
Proof.
  assert (Hch : chained full_table).
  { apply (chained_run
             [Put (PyStr "a") (PyInt 1); Put (PyStr "b") (PyInt 2);
              Put (PyStr "c") (PyInt 3); Put (PyStr "d") (PyInt 4);
              Put (PyStr "e") (PyInt 5); Put (PyStr "f") (PyInt 6)]
             new_Hash full_table chained_new_Hash);
      [reflexivity|vm_compute; reflexivity]. }
  assert (Hvalid : valid full_table).
  { split; [unfold wf; cbn; repeat split; reflexivity|].
    repeat split. cbn. discriminate. }
  split; [exact Hch|]. split; [exact Hvalid|]. split; [discriminate|].
  split; [reflexivity|]. eexists.
  split; [vm_compute; reflexivity|]. split; [reflexivity|].
  apply (growing_put_keeps_other_keys full_table (PyStr "g") (PyInt 7)
           (PyStr "a") (PyInt 1)).
  - exact Hch.
  - exact Hvalid.
  - discriminate.
  - reflexivity.
  - vm_compute; reflexivity.
Defined.

(** ** The hash of a longer text *)

Lemma custom_hash_loop_app s t : forall result,
  custom_hash_loop result (String.append s t)
  = custom_hash_loop (custom_hash_loop result s) t.
Proof.
  induction s as [|char s IH]; intros result; [reflexivity|].
  cbn [String.append custom_hash_loop]. apply IH.
Qed.

(** X17. The hash of a text is computed from left to right: the hash of
    [s] followed by [t] is the accumulation over [t] that starts from
    the hash of [s], and one more character [c] turns the hash [h] into
    [33 * h + ord c]. *)
Theorem custom_hash_of_longer_text s :
  exists h,
    custom_hash (PyStr s) = Ok h /\
    (forall t,
       custom_hash (PyStr (String.append s t)) = Ok (custom_hash_loop h t)) /\
    (forall c,
       custom_hash (PyStr (String.append s (String c EmptyString)))
       = Ok (33 * h + ord c)).
Proof.
  eexists. split; [reflexivity|]. split.
  - intros t. cbn [custom_hash]. now rewrite custom_hash_loop_app.
  - intros c. cbn [custom_hash]. now rewrite custom_hash_loop_app.
Qed.

(** ** The threshold, at a size in use *)

Lemma should_expand_ratio_witness :
  0 < 9 * _size full_table < 2 ^ 53 /\
  0 <= _used_slots full_table + _dummy_slots full_table < 2 ^ 53 /\
  should_expand full_table
  = (7 * _size full_table
     <=? 10 * (_used_slots full_table + _dummy_slots full_table)).
Proof.
  assert (Hs : 0 < 9 * _size full_table < 2 ^ 53) by (cbn; lia).
  assert (Hn : 0 <= _used_slots full_table + _dummy_slots full_table < 2 ^ 53)
    by (cbn; lia).
  split; [exact Hs|]. split; [exact Hn|].
  apply (should_expand_ratio full_table); [exact Hs|exact Hn].
Defined.
